(** * zGrid: span merging, text reconstruction, sentence offsets, diff spans

    A shallow embedding of the text-processing core of the zGrid services:

    - [src/pii_service/utils.py]: [apply_redactions], [merge_spans];
    - [src/tox_service/utils.py]: [sentences_with_offsets], [redact_ranges];
    - [src/tox_service/profanity.py]: [detect_and_apply].

    Python [str] values are lists of characters, Python [int] offsets are
    [Z], loop indices that only count upwards from [0] are [nat], and a
    Python call either returns a value or raises. *)

From Stdlib Require Import Ascii String.
From Stdlib Require Import List ZArith Lia Bool QArith.
From Stdlib Require Import Sorting.Sorted Sorting.Permutation.
Import ListNotations.

Local Open Scope Z_scope.

(** ** Python values *)

(** A Python [str]: a sequence of code points. *)
Definition str : Type := list ascii.

(** The exceptions the specification or the code speak of.  The code
    itself contains no [raise]; the only exception its own statements can
    produce on well-typed inputs is the [IndexError] of a subscript. *)
Inductive exn : Type :=
| IndexError
| ValidationError
| PreconditionError.

(** Result of running a Python function.  [OutOfFuel] is used only by the
    fuelled model of a [while] loop and is shown never to occur. *)
Inductive outcome (A : Type) : Type :=
| Returns (a : A)
| Raises (e : exn)
| OutOfFuel.
Arguments Returns {A} a.
Arguments Raises {A} e.
Arguments OutOfFuel {A}.

Definition bind {A B : Type} (m : outcome A) (k : A -> outcome B) : outcome B :=
  match m with
  | Returns a => k a
  | Raises e => Raises e
  | OutOfFuel => OutOfFuel
  end.

Notation "x <- m ;; k" := (bind m (fun x => k))
  (at level 61, m at next level, right associativity).

(** ** Slices *)

Section Slices.
Context {A : Type}.

(** [s[i:j]] for indices already known to be natural numbers. *)
Definition substr (s : list A) (i j : nat) : list A :=
  firstn (j - i) (skipn i s).

(** How Python normalises one bound of a slice: a negative bound counts
    from the end, and the result is clamped to [0, len]. *)
Definition slice_bound (n : nat) (x : Z) : nat :=
  if x <? 0 then Z.to_nat (Z.max 0 (x + Z.of_nat n))
  else Z.to_nat (Z.min x (Z.of_nat n)).

(** [s[lo:hi]] *)
Definition py_slice (s : list A) (lo hi : Z) : list A :=
  substr s (slice_bound (length s) lo) (slice_bound (length s) hi).

(** [s[lo:]] *)
Definition py_slice_from (s : list A) (lo : Z) : list A :=
  skipn (slice_bound (length s) lo) s.
End Slices.

(** ** [sorted] and [list.sort]

    Python's sort is stable, and a stable sort by a totally preordered key
    has exactly one result; it is written here as an insertion sort that
    puts an element before the first later element whose key is not
    smaller. *)

Section PySort.
Context {A K : Type} (key : A -> K) (leb : K -> K -> bool).

Fixpoint insert_by (x : A) (l : list A) : list A :=
  match l with
  | [] => [x]
  | y :: l' => if leb (key x) (key y) then x :: l else y :: insert_by x l'
  end.

Fixpoint sorted_by (l : list A) : list A :=
  match l with
  | [] => []
  | x :: l' => insert_by x (sorted_by l')
  end.
End PySort.

(** [merged[-1]] and [merged[-1] = s] *)

Fixpoint last_opt {A : Type} (l : list A) : option A :=
  match l with
  | [] => None
  | [x] => Some x
  | _ :: l' => last_opt l'
  end.

Definition set_last {A : Type} (l : list A) (x : A) : list A :=
  removelast l ++ [x].

(** ** [src/pii_service/utils.py] *)

(** The entity dictionary built by [to_entity_dict].  [merge_spans] and
    [apply_redactions] read ["start"] and ["end"] by subscript and
    ["score"] and ["replacement"] through [.get] with a default, hence
    the two optional fields. *)
Record Span : Type := mkSpan {
  sp_type : str;
  sp_value : str;
  sp_start : Z;
  sp_end : Z;
  sp_score : option Q;
  sp_replacement : option str
}.

(** The transient ["_src"] key that [merge_spans] sets on each dictionary
    and pops again before returning.  The two argument lists are taken to
    hold distinct dictionary objects, as the caller in [app.py] builds
    them. *)
Inductive source : Type := presidio | gliner.

Record Tagged : Type := tag { src : source; span : Span }.

Definition is_presidio (x : source) : bool :=
  match x with presidio => true | gliner => false end.

Definition is_gliner (x : source) : bool :=
  match x with presidio => false | gliner => true end.

(** [s.get("score", 0)] *)
Definition get_score (s : Span) : Q :=
  match sp_score s with Some q => q | None => 0%Q end.

(** [s.get("replacement", "[REDACTED]")] *)
Definition get_replacement (s : Span) : str :=
  match sp_replacement s with
  | Some r => r
  | None => list_ascii_of_string "[REDACTED]"
  end.

Definition Qgtb (a b : Q) : bool := negb (Qle_bool a b).

(** Order on the sort key [(s["start"], -s["end"])]: tuples compare
    lexicographically. *)
Definition merge_key (t : Tagged) : Z * Z := (sp_start (span t), - sp_end (span t)).

Definition pair_leb (a b : Z * Z) : bool :=
  (fst a <? fst b) || ((fst a =? fst b) && (snd a <=? snd b)).

(** [s["start"] < last["end"] and s["end"] > last["start"]] *)
Definition overlap (s last : Span) : bool :=
  (sp_start s <? sp_end last) && (sp_end s >? sp_start last).

(** One iteration of the [for s in spans] loop of [merge_spans]. *)
Definition sweep_step (merged : list Tagged) (s : Tagged) : list Tagged :=
  match last_opt merged with
  | None => merged ++ [s]
  | Some last =>
      if negb (overlap (span s) (span last)) then merged ++ [s]
      else if is_presidio (src last) && is_gliner (src s) then merged
      else if is_gliner (src last) && is_presidio (src s) then set_last merged s
      else
        let last_len := sp_end (span last) - sp_start (span last) in
        let cur_len := sp_end (span s) - sp_start (span s) in
        if (cur_len >? last_len)
           || ((cur_len =? last_len) && Qgtb (get_score (span s)) (get_score (span last)))
        then set_last merged s
        else merged
  end.

Definition sweep (spans : list Tagged) : list Tagged :=
  fold_left sweep_step spans [].

(** [merge_spans(text, presidio_spans, gliner_spans)]; [text] is not read. *)
Definition merge_spans (text : str) (presidio_spans gliner_spans : list Span)
  : outcome (list Span) :=
  let spans := map (tag presidio) presidio_spans ++ map (tag gliner) gliner_spans in
  let spans := sorted_by merge_key pair_leb spans in
  Returns (map span (sweep spans)).

(** The loop of [apply_redactions]: state is the list [out] of pieces and
    the cursor [i]. *)
Definition redaction_step (text : str) (st : list str * Z) (s : Span) : list str * Z :=
  let '(out, i) := st in
  (out ++ [py_slice text i (sp_start s); get_replacement s], sp_end s).

(** [apply_redactions(text, spans)] *)
Definition apply_redactions (text : str) (spans : list Span) : outcome str :=
  match spans with
  | [] => Returns text
  | _ =>
      let spans := sorted_by sp_start Z.leb spans in
      let '(out, i) := fold_left (redaction_step text) spans ([], 0) in
      Returns (concat (out ++ [py_slice_from text i]))
  end.

(** ** [src/tox_service/utils.py] *)

(** [max(0, min(len(text), x))] *)
Definition clamp (text : str) (x : Z) : Z :=
  Z.max 0 (Z.min (Z.of_nat (length text)) x).

(** The loop of [redact_ranges] over the sorted [(s, e)] pairs. *)
Definition redact_step (text token : str) (st : list str * Z) (r : Z * Z)
  : list str * Z :=
  let '(out, i) := st in
  let s := clamp text (fst r) in
  let e := clamp text (snd r) in
  if s <? i then (out, i)
  else (out ++ [py_slice text i s; token], e).

(** [redact_ranges(text, bad_ranges, token)] *)
Definition redact_ranges (text : str) (bad_ranges : list (Z * Z)) (token : str)
  : outcome str :=
  match bad_ranges with
  | [] => Returns text
  | _ =>
      let bad_ranges := sorted_by fst Z.leb bad_ranges in
      let '(out, i) := fold_left (redact_step text token) bad_ranges ([], 0) in
      Returns (concat (out ++ [py_slice_from text i]))
  end.

(** Code points for which [str.isspace] holds, among the first 256. *)
Definition is_space (c : ascii) : bool :=
  let n := nat_of_ascii c in
  ((9 <=? n) && (n <=? 13) || (28 <=? n) && (n <=? 32)
   || (n =? 133) || (n =? 160))%nat.

Fixpoint lstrip (s : str) : str :=
  match s with
  | [] => []
  | c :: s' => if is_space c then lstrip s' else s
  end.

(** [text.strip()] *)
Definition strip (s : str) : str := rev (lstrip (rev (lstrip s))).

(** [rest.startswith(p)] *)
Fixpoint prefixb (p rest : str) : bool :=
  match p, rest with
  | [], _ => true
  | _ :: _, [] => false
  | a :: p', b :: rest' => Ascii.eqb a b && prefixb p' rest'
  end.

(** Scan for the first position, counted from [i], at which [sub] starts. *)
Fixpoint find_at (rest sub : str) (i : Z) : Z :=
  if prefixb sub rest then i
  else match rest with
       | [] => -1
       | _ :: rest' => find_at rest' sub (i + 1)
       end.

(** [text.find(sub, start)]: the lowest index at or after [start] where
    [sub] occurs, [-1] when there is none or [start] is past the end. *)
Definition py_find (text sub : str) (start : Z) : Z :=
  if Z.of_nat (length text) <? start then -1
  else
    let k := slice_bound (length text) start in
    find_at (skipn k text) sub (Z.of_nat k).

(** A sentence with its offsets: the tuple [(start, end, sentence)]. *)
Definition SentenceSpan : Type := (Z * Z * str)%type.

(** One iteration of [for sentence in sentences]. *)
Definition sentence_step (text : str) (st : list SentenceSpan * Z) (sentence : str)
  : list SentenceSpan * Z :=
  let '(out, current_pos) := st in
  let start := py_find text sentence current_pos in
  let start := if start =? -1 then current_pos else start in
  let end_ := start + Z.of_nat (length sentence) in
  (out ++ [(start, end_, sentence)], end_).

Section Segmenter.
(** NLTK's [sent_tokenize], an external collaborator. *)
Variable sent_tokenize : str -> list str.

(** [sentences_with_offsets(text)] *)
Definition sentences_with_offsets (text : str) : outcome (list SentenceSpan) :=
  match strip text with
  | [] => Returns []
  | _ =>
      let sentences := sent_tokenize text in
      let '(out, _) := fold_left (sentence_step text) sentences ([], 0) in
      match out with
      | [] => Returns [(0, Z.of_nat (length text), text)]
      | _ => Returns out
      end
  end.
End Segmenter.

(** ** [src/tox_service/profanity.py] *)

(** The dictionary [{"token": ..., "start": ..., "end": ...}]. *)
Record TokSpan : Type := mkTok {
  token : str;
  tok_start : nat;
  tok_end : nat
}.

(** [text[i] != censored[i]]; a subscript past the end raises. *)
Definition differ_at (text censored : str) (i : nat) : outcome bool :=
  match nth_error text i, nth_error censored i with
  | Some a, Some b => Returns (negb (Ascii.eqb a b))
  | _, _ => Raises IndexError
  end.

(** [while j < len(text) and text[j] != censored[j]: j += 1] *)
Fixpoint run_end (text censored : str) (fuel j : nat) : outcome nat :=
  match fuel with
  | O => OutOfFuel
  | S fuel' =>
      if (j <? length text)%nat then
        d <- differ_at text censored j ;;
        if d then run_end text censored fuel' (S j) else Returns j
      else Returns j
  end.

(** [while i < len(text): ...], the scan for changed regions. *)
Fixpoint scan (text censored : str) (fuel i : nat) (spans : list TokSpan)
  : outcome (list TokSpan) :=
  match fuel with
  | O => OutOfFuel
  | S fuel' =>
      if (i <? length text)%nat then
        d <- differ_at text censored i ;;
        if d then
          j <- run_end text censored (S (length text)) i ;;
          scan text censored fuel' j (spans ++ [mkTok (substr text i j) i j])
        else scan text censored fuel' (S i) spans
      else Returns spans
  end.

(** The span extraction of [detect_and_apply], lines 33 to 44. *)
Definition diff_spans (text censored : str) : outcome (list TokSpan) :=
  scan text censored (S (length text)) 0%nat [].

Definition str_eq_dec : forall a b : str, {a = b} + {a <> b} :=
  list_eq_dec ascii_dec.

(** The loop of the ["remove"] branch. *)
Definition remove_step (text : str) (st : list str * nat) (s : TokSpan)
  : list str * nat :=
  let '(out, k) := st in
  (out ++ [substr text k (tok_start s)], tok_end s).

Section Profanity.
(** [_censor(text, "*")], the call into [better_profanity]. *)
Variable censor : str -> str.

(** [detect_and_apply(text, action)] *)
Definition detect_and_apply (text action : str) : outcome (str * list TokSpan) :=
  let censored := censor text in
  if str_eq_dec censored text then Returns (text, [])
  else
    spans <- diff_spans text censored ;;
    if str_eq_dec action (list_ascii_of_string "mask") then Returns (censored, spans)
    else if str_eq_dec action (list_ascii_of_string "remove") then
      let '(out, k) := fold_left (remove_step text) spans ([], 0%nat) in
      Returns (concat (out ++ [skipn k text]), spans)
    else Returns (censored, spans).
End Profanity.

(** ** Literals for concrete inputs *)

Definition lit (s : string) : str := list_ascii_of_string s.

Definition span_at (a b : Z) : Span := mkSpan [] [] a b None None.

(** ** More of [src/tox_service/utils.py] *)

(** [s.split()]: the maximal runs of characters that are not whitespace,
    in order. *)
Fixpoint py_split (s : str) : list str :=
  match s with
  | [] => []
  | c :: s' =>
      if is_space c then py_split s'
      else
        match s' with
        | [] => [[c]]
        | d :: _ =>
            if is_space d then [c] :: py_split s'
            else
              match py_split s' with
              | w :: ws => (c :: w) :: ws
              | [] => [[c]]
              end
        end
  end.

(** [sep.join(l)] *)
Fixpoint py_join (sep : str) (l : list str) : str :=
  match l with
  | [] => []
  | [x] => x
  | x :: l' => x ++ sep ++ py_join sep l'
  end.

(** [join_preserving_spacing(text, keep_ranges)] *)
Definition join_preserving_spacing (text : str) (keep_ranges : list (Z * Z))
  : outcome str :=
  let pieces := map (fun r => py_slice text (fst r) (snd r)) keep_ranges in
  let out := concat pieces in
  Returns (py_join [" "%char] (py_split out)).

(** ** More of [src/pii_service/utils.py] *)

(** [c.lower()] for a code point below 256: the ASCII capitals and the
    Latin-1 capitals (all of 192 to 222 but the multiplication sign) move
    up by 32. *)
Definition lower_char (c : ascii) : ascii :=
  let n := nat_of_ascii c in
  if ((65 <=? n) && (n <=? 90) || (192 <=? n) && (n <=? 214)
      || (216 <=? n) && (n <=? 222))%nat
  then ascii_of_nat (n + 32) else c.

(** [s.lower()] *)
Definition py_lower (s : str) : str := map lower_char s.

Definition GENERIC_PREFACE : list str :=
  map list_ascii_of_string
    ["email"; "e-mail"; "mail"; "phone"; "tel"; "telephone"; "mobile"; "mob";
     "address"; "addr"; "name"; "location"; "loc"; "city"; "state"; "country";
     "contact"; "contacts"; "contact:"]%string.

(** [t in GENERIC_PREFACE] *)
Definition in_str_set (t : str) (set : list str) : bool :=
  existsb (fun w => if str_eq_dec t w then true else false) set.

(** [is_generic_preface_span(span_text)]; [None] stands for an argument
    that is [None], which [span_text or ""] turns into the empty string. *)
Definition is_generic_preface_span (span_text : option str) : bool :=
  let t := py_lower (strip (match span_text with Some s => s | None => [] end)) in
  in_str_set t GENERIC_PREFACE.

(** ** Properties the statements below speak of *)

(** A span that covers at least one character. *)
Definition nonempty (s : Span) : Prop := sp_start s < sp_end s.

(** [a] ends where [b] starts, or earlier. *)
Definition before (a b : Span) : Prop := sp_end a <= sp_start b.

Definition start_le (a b : Span) : Prop := sp_start a <= sp_start b.

(** [l] is obtained from [l'] by dropping elements, order kept. *)
Inductive subseq {A : Type} : list A -> list A -> Prop :=
| subseq_nil : subseq [] []
| subseq_skip x l l' : subseq l l' -> subseq l (x :: l')
| subseq_keep x l l' : subseq l l' -> subseq (x :: l) (x :: l').

(** The order in which the sweep visits spans: by start, and among equal
    starts the one that ends later first. *)
Definition sweep_order (a b : Span) : Prop :=
  pair_leb (sp_start a, - sp_end a) (sp_start b, - sp_end b) = true.

(** [b] may follow [a] in the sweep without a conflict. *)
Definition follows (a b : Span) : Prop :=
  sweep_order a b /\ overlap b a = false.

(** The walk over a text that the replace policy is described by: the
    slice before each span, then what [f] puts in the span's place, and the
    tail after the last span. *)
Fixpoint weave (f : Span -> str) (text : str) (i : Z) (spans : list Span) : str :=
  match spans with
  | [] => py_slice_from text i
  | s :: rest =>
      py_slice text i (sp_start s) ++ f s ++ weave f text (sp_end s) rest
  end.

(** What a span covers in the text. *)
Definition covered (text : str) (s : Span) : str :=
  py_slice text (sp_start s) (sp_end s).

(** Spans in start order and non-overlapping from the cursor [i] on:
    [i <= start <= end] for the first, and so on from its end. *)
Fixpoint laid_out (i : Z) (spans : list Span) : Prop :=
  match spans with
  | [] => True
  | s :: rest => i <= sp_start s /\ sp_start s <= sp_end s /\ laid_out (sp_end s) rest
  end.

(** A text in which the given sentences occur verbatim, in order and
    apart from one another: a gap, a sentence, a gap, a sentence, and so
    on, then a tail. *)
Fixpoint interleave (pieces : list (str * str)) (tail : str) : str :=
  match pieces with
  | [] => tail
  | (gap, sentence) :: rest => gap ++ sentence ++ interleave rest tail
  end.

(** The triple lies inside the text and carries exactly the characters
    between its two offsets. *)
Definition exact_span (text : str) (sp : SentenceSpan) : Prop :=
  let '(start, end_, sentence) := sp in
  0 <= start <= end_ /\ end_ <= Z.of_nat (length text) /\
  py_slice text start end_ = sentence.

(** The two strings hold different characters at index [i]. *)
Definition neq_at (text censored : str) (i : nat) : bool :=
  match nth_error text i, nth_error censored i with
  | Some a, Some b => negb (Ascii.eqb a b)
  | _, _ => false
  end.

(** [[s, e)] is a maximal contiguous range of differing indices: not
    empty, inside the text, differing throughout, and not extendable at
    either side. *)
Definition maximal_run (text censored : str) (s e : nat) : Prop :=
  (s < e <= length text)%nat /\
  (forall i, (s <= i < e)%nat -> neq_at text censored i = true) /\
  (s = 0%nat \/ neq_at text censored (s - 1) = false) /\
  (e = length text \/ neq_at text censored e = false).

(** What the extractor is to return for [text] and [censored]: every
    maximal differing range, once, with the original characters, in
    ascending order. *)
Definition diff_runs (text censored : str) (spans : list TokSpan) : Prop :=
  (forall sp, In sp spans <->
     maximal_run text censored (tok_start sp) (tok_end sp) /\
     token sp = substr text (tok_start sp) (tok_end sp)) /\
  StronglySorted (fun a b => (tok_end a <= tok_start b)%nat) spans.

(** The same for the ranges that start at index [i] or later: what the
    outer loop has still to append when it stands at [i]. *)
Definition runs_from (text censored : str) (i : nat) (l : list TokSpan) : Prop :=
  (forall sp, In sp l <->
     maximal_run text censored (tok_start sp) (tok_end sp) /\
     (i <= tok_start sp)%nat /\
     token sp = substr text (tok_start sp) (tok_end sp)) /\
  StronglySorted (fun a b => (tok_end a <= tok_start b)%nat) l.

(** Not a whitespace character. *)
Definition visible (c : ascii) : bool := negb (is_space c).

(** The only whitespace in [s] is single blanks, each between two visible
    characters. *)
Fixpoint tidy (s : str) : bool :=
  match s with
  | [] => true
  | c :: s' =>
      visible c &&
      match s' with
      | [] => true
      | d :: s'' =>
          if is_space d then
            Ascii.eqb d " "%char && match s'' with [] => false | _ => tidy s'' end
          else tidy s'
      end
  end.

(** A range [(s, e)] seen as a span, to lay ranges out with [laid_out] and
    walk them with [weave]. *)
Definition range_span (r : Z * Z) : Span := span_at (fst r) (snd r).

(** The characters of [text] at the positions where [censored] holds the
    same character. *)
Fixpoint keep_same (text censored : str) : str :=
  match text, censored with
  | a :: text', b :: censored' =>
      if Ascii.eqb a b then a :: keep_same text' censored'
      else keep_same text' censored'
  | _, _ => []
  end.

(** Index [j] lies inside one of the spans. *)
Definition covered_by (spans : list TokSpan) (j : nat) : Prop :=
  exists sp, In sp spans /\ (tok_start sp <= j < tok_end sp)%nat.

(** The text between the spans from index [k] on, as the ["remove"] loop
    collects it. *)
Fixpoint gaps_from (text : str) (k : nat) (spans : list TokSpan) : str :=
  match spans with
  | [] => skipn k text
  | sp :: rest => substr text k (tok_start sp) ++ gaps_from text (tok_end sp) rest
  end.

(** [a] wins a conflict against [b] of the same source: it is longer, or
    as long with a higher score. *)
Definition outranks (a b : Span) : Prop :=
  sp_end b - sp_start b < sp_end a - sp_start a \/
  (sp_end b - sp_start b = sp_end a - sp_start a /\
   (get_score b < get_score a)%Q).

(** The sentence of a triple, its offsets, and the shape every triple of
    the segmenter has. *)
Definition sent_start (sp : SentenceSpan) : Z := fst (fst sp).
Definition sent_end (sp : SentenceSpan) : Z := snd (fst sp).
Definition sent_text (sp : SentenceSpan) : str := snd sp.

Definition sized_span (sp : SentenceSpan) : Prop :=
  0 <= sent_start sp /\
  sent_end sp = sent_start sp + Z.of_nat (length (sent_text sp)).

(** * Facts about the list helpers *)

Section LastFacts.
Context {A : Type}.
Implicit Types (l m : list A) (x y : A).

Lemma last_opt_snoc l x : last_opt (l ++ [x]) = Some x.
Proof.
  induction l as [|a l IH]; simpl; [reflexivity|].
  rewrite IH. destruct (l ++ [x]) eqn:E; [|reflexivity].
  destruct l; discriminate.
Qed.

Lemma last_opt_None l : last_opt l = None -> l = [].
Proof.
  induction l as [|a l IH]; [reflexivity|].
  simpl. destruct l as [|b l]; [discriminate|].
  intros H. apply IH in H. discriminate.
Qed.

Lemma last_opt_Some l x : last_opt l = Some x -> exists m, l = m ++ [x].
Proof.
  induction l as [|a l IH]; [discriminate|].
  simpl. destruct l as [|b l].
  - intros [= ->]. exists []. reflexivity.
  - intros H. destruct (IH H) as [m Hm]. exists (a :: m). rewrite Hm. reflexivity.
Qed.

Lemma set_last_snoc m x y : set_last (m ++ [x]) y = m ++ [y].
Proof. unfold set_last. rewrite removelast_last. reflexivity. Qed.

Lemma snoc_cases l : l = [] \/ exists m x, l = m ++ [x].
Proof.
  destruct (last_opt l) as [x|] eqn:E.
  - right. destruct (last_opt_Some _ _ E) as [m Hm]. eauto.
  - left. apply last_opt_None. exact E.
Qed.

Lemma StronglySorted_snoc (R : A -> A -> Prop) m x :
  StronglySorted R m -> Forall (fun a => R a x) m -> StronglySorted R (m ++ [x]).
Proof.
  induction 1 as [|a m Hm IH Ha]; intros Hx; simpl.
  - repeat constructor.
  - inversion Hx; subst. constructor; [auto|].
    apply Forall_app. split; [assumption|]. constructor; [assumption|constructor].
Qed.

Lemma StronglySorted_snoc_inv (R : A -> A -> Prop) m x :
  StronglySorted R (m ++ [x]) -> StronglySorted R m /\ Forall (fun a => R a x) m.
Proof.
  induction m as [|a m IH]; simpl; intros H.
  - split; constructor.
  - inversion H as [|? ? Hs Hf]; subst. destruct (IH Hs) as [Hm Hx].
    apply Forall_app in Hf. destruct Hf as [Hf1 Hf2].
    split; constructor; auto. inversion Hf2; assumption.
Qed.

Lemma StronglySorted_nth (R : A -> A -> Prop) l :
  StronglySorted R l ->
  forall i j a b, (i < j)%nat ->
    nth_error l i = Some a -> nth_error l j = Some b -> R a b.
Proof.
  induction 1 as [|c l Hl IH Hc]; intros i j a b Hij Ha Hb.
  - destruct i; discriminate.
  - destruct j as [|j]; [lia|]. simpl in Hb.
    destruct i as [|i]; simpl in Ha.
    + injection Ha as <-. rewrite Forall_forall in Hc. apply Hc.
      eapply nth_error_In. exact Hb.
    + apply (IH i j); [lia|assumption|assumption].
Qed.
End LastFacts.

(** * Facts about the sort *)

Section SortFacts.
Context {A K : Type} (key : A -> K) (leb : K -> K -> bool).

Let le (a b : A) : Prop := leb (key a) (key b) = true.

Lemma insert_by_perm x l : Permutation (x :: l) (insert_by key leb x l).
Proof.
  induction l as [|y l IH]; simpl; [reflexivity|].
  destruct (leb (key x) (key y)); [reflexivity|].
  rewrite perm_swap. constructor. exact IH.
Qed.

Lemma sorted_by_perm l : Permutation l (sorted_by key leb l).
Proof.
  induction l as [|x l IH]; simpl; [constructor|].
  rewrite <- insert_by_perm. constructor. exact IH.
Qed.

Lemma sorted_by_In l x : In x (sorted_by key leb l) <-> In x l.
Proof.
  split; apply Permutation_in; [symmetry|]; apply sorted_by_perm.
Qed.

(** A list already in key order is left as it is. *)
Lemma sorted_by_id l : Sorted le l -> sorted_by key leb l = l.
Proof.
  induction 1 as [|x l Hl IH Hx]; simpl; [reflexivity|].
  rewrite IH. destruct Hx as [|y l Hxy]; simpl; [reflexivity|].
  unfold le in Hxy. rewrite Hxy. reflexivity.
Qed.

Hypothesis leb_total : forall a b, leb a b = true \/ leb b a = true.
Hypothesis leb_trans : forall a b c, leb a b = true -> leb b c = true -> leb a c = true.

Lemma insert_by_sorted x l :
  StronglySorted le l -> StronglySorted le (insert_by key leb x l).
Proof.
  induction 1 as [|y l Hl IH Hy]; simpl.
  - repeat constructor.
  - destruct (leb (key x) (key y)) eqn:E.
    + constructor; [constructor; assumption|].
      constructor; [exact E|].
      eapply Forall_impl; [|exact Hy]. intros z Hz. unfold le in *. eauto.
    + constructor; [exact IH|].
      rewrite Forall_forall. intros z Hz.
      apply (Permutation_in _ (Permutation_sym (insert_by_perm x l))) in Hz.
      destruct Hz as [<-|Hz].
      * destruct (leb_total (key x) (key y)) as [H|H]; [congruence|exact H].
      * rewrite Forall_forall in Hy. auto.
Qed.

Lemma sorted_by_sorted l : StronglySorted le (sorted_by key leb l).
Proof.
  induction l as [|x l IH]; simpl; [constructor|].
  apply insert_by_sorted. exact IH.
Qed.
End SortFacts.

Lemma pair_leb_total a b : pair_leb a b = true \/ pair_leb b a = true.
Proof.
  unfold pair_leb.
  destruct (Z.ltb_spec (fst a) (fst b)), (Z.ltb_spec (fst b) (fst a)),
    (Z.eqb_spec (fst a) (fst b)), (Z.eqb_spec (fst b) (fst a)),
    (Z.leb_spec (snd a) (snd b)), (Z.leb_spec (snd b) (snd a));
    simpl; auto; lia.
Qed.

Lemma pair_leb_trans a b c :
  pair_leb a b = true -> pair_leb b c = true -> pair_leb a c = true.
Proof.
  unfold pair_leb.
  destruct (Z.ltb_spec (fst a) (fst b)), (Z.ltb_spec (fst b) (fst c)),
    (Z.ltb_spec (fst a) (fst c)),
    (Z.eqb_spec (fst a) (fst b)), (Z.eqb_spec (fst b) (fst c)),
    (Z.eqb_spec (fst a) (fst c)),
    (Z.leb_spec (snd a) (snd b)), (Z.leb_spec (snd b) (snd c)),
    (Z.leb_spec (snd a) (snd c));
    simpl; auto; try discriminate; lia.
Qed.

Lemma pair_leb_start a b :
  pair_leb (merge_key a) (merge_key b) = true ->
  sp_start (span a) <= sp_start (span b).
Proof.
  unfold pair_leb, merge_key. simpl.
  destruct (Z.ltb_spec (sp_start (span a)) (sp_start (span b))),
    (Z.eqb_spec (sp_start (span a)) (sp_start (span b)));
    simpl; try discriminate; lia.
Qed.

(** * The merge sweep *)

(** The three things one iteration can do to [merged]. *)
Lemma sweep_step_cases merged s :
  (sweep_step merged s = merged ++ [s] /\
   (merged = [] \/
    exists m l, merged = m ++ [l] /\ overlap (span s) (span l) = false)) \/
  (exists m l, merged = m ++ [l] /\ overlap (span s) (span l) = true /\
     (sweep_step merged s = merged \/ sweep_step merged s = m ++ [s])).
Proof.
  destruct (snoc_cases merged) as [->|(m & l & ->)].
  - left. split; [reflexivity|left; reflexivity].
  - unfold sweep_step. rewrite last_opt_snoc, set_last_snoc.
    destruct (overlap (span s) (span l)) eqn:Ho; simpl.
    + right. exists m, l. split; [reflexivity|]. split; [exact Ho|].
      destruct (is_presidio (src l) && is_gliner (src s)); [left; reflexivity|].
      destruct (is_gliner (src l) && is_presidio (src s)); [right; reflexivity|].
      match goal with |- context [if ?c then _ else _] => destruct c end; auto.
    + left. split; [reflexivity|]. right. exists m, l. auto.
Qed.

Lemma overlap_false_before s l :
  overlap s l = false -> nonempty s -> sp_start l <= sp_start s -> before l s.
Proof.
  unfold overlap, nonempty, before. intros H Hs Hl.
  apply andb_false_iff in H. destruct H as [H|H].
  - apply Z.ltb_ge in H. exact H.
  - rewrite Z.gtb_ltb in H. apply Z.ltb_ge in H. lia.
Qed.

Section SweepInvariant.
Let tbefore (a b : Tagged) : Prop := before (span a) (span b).
Let tnonempty (a : Tagged) : Prop := nonempty (span a).
Let tstart_le (a b : Tagged) : Prop := start_le (span a) (span b).

Lemma sweep_step_last merged s l' :
  last_opt (sweep_step merged s) = Some l' -> l' = s \/ last_opt merged = Some l'.
Proof.
  destruct (sweep_step_cases merged s) as [[-> _]|(m & l & -> & _ & [->| ->])];
    rewrite ?last_opt_snoc; intros H; auto; injection H as <-; auto.
Qed.

Lemma sweep_step_sorted merged s :
  StronglySorted tbefore merged -> Forall tnonempty merged -> tnonempty s ->
  (forall l, last_opt merged = Some l -> tstart_le l s) ->
  StronglySorted tbefore (sweep_step merged s) /\
  Forall tnonempty (sweep_step merged s).
Proof.
  intros Hs Hn Hsn Hl.
  destruct (sweep_step_cases merged s)
    as [[-> [->|(m & l & -> & Ho)]]|(m & l & -> & _ & [->| ->])].
  - split; repeat constructor. exact Hsn.
  - specialize (Hl l (last_opt_snoc _ _)).
    assert (Hls : tbefore l s) by (apply overlap_false_before; assumption).
    destruct (StronglySorted_snoc_inv _ _ _ Hs) as [Hm Hml].
    apply Forall_app in Hn. destruct Hn as [Hnm Hnl]. inversion Hnl; subst.
    split.
    + apply StronglySorted_snoc; [exact Hs|].
      apply Forall_app. split; [|repeat constructor; exact Hls].
      eapply Forall_impl; [|exact Hml]. intros a Ha.
      unfold tbefore, tnonempty, before, nonempty in *. lia.
    + apply Forall_app. split; [|repeat constructor; exact Hsn].
      apply Forall_app. split; assumption.
  - split; assumption.
  - specialize (Hl l (last_opt_snoc _ _)).
    destruct (StronglySorted_snoc_inv _ _ _ Hs) as [Hm Hml].
    apply Forall_app in Hn. destruct Hn as [Hnm _].
    split.
    + apply StronglySorted_snoc; [exact Hm|].
      eapply Forall_impl; [|exact Hml]. intros a Ha.
      unfold tbefore, tstart_le, before, start_le in *. lia.
    + apply Forall_app. split; [assumption|repeat constructor; exact Hsn].
Qed.

Lemma sweep_fold_sorted spans : forall merged,
  StronglySorted tstart_le spans -> Forall tnonempty spans ->
  StronglySorted tbefore merged -> Forall tnonempty merged ->
  (forall l, last_opt merged = Some l -> Forall (tstart_le l) spans) ->
  StronglySorted tbefore (fold_left sweep_step spans merged) /\
  Forall tnonempty (fold_left sweep_step spans merged).
Proof.
  induction spans as [|s spans IH]; intros merged Hss Hsn Hm Hn Hl; simpl.
  - split; assumption.
  - inversion Hss as [|? ? Hss' Hs]; subst. inversion Hsn as [|? ? Hs1 Hsn']; subst.
    destruct (sweep_step_sorted merged s Hm Hn Hs1) as [Hm' Hn'].
    { intros l E. specialize (Hl l E). inversion Hl; assumption. }
    apply IH; try assumption.
    intros l' E. destruct (sweep_step_last _ _ _ E) as [->|E']; [exact Hs|].
    specialize (Hl l' E'). inversion Hl; assumption.
Qed.
End SweepInvariant.

Section SubseqFacts.
Context {A : Type}.
Implicit Types (l m : list A).

Lemma subseq_refl l : subseq l l.
Proof. induction l; [apply subseq_nil|apply subseq_keep; assumption]. Qed.

Lemma subseq_app l1 l1' l2 l2' :
  subseq l1 l1' -> subseq l2 l2' -> subseq (l1 ++ l2) (l1' ++ l2').
Proof.
  induction 1; intros H2; simpl;
    [exact H2|apply subseq_skip; auto|apply subseq_keep; auto].
Qed.

Lemma subseq_nil_l l : subseq [] l.
Proof. induction l; [apply subseq_nil|apply subseq_skip; assumption]. Qed.

Lemma subseq_drop_last m x l : subseq (m ++ [x]) l -> subseq m l.
Proof.
  revert m. induction l as [|y l IH]; intros m H.
  - inversion H; subst; destruct m; discriminate.
  - inversion H as [|? ? ? H'|? m' ? H' E]; subst.
    + apply subseq_skip. apply IH. exact H'.
    + destruct m as [|z m]; simpl in E.
      * apply subseq_nil_l.
      * injection E as -> ->. apply subseq_keep. apply IH. exact H'.
Qed.

Lemma subseq_In l l' x : subseq l l' -> In x l -> In x l'.
Proof. induction 1; simpl; intuition. Qed.

Lemma subseq_length l l' : subseq l l' -> (length l <= length l')%nat.
Proof. induction 1; simpl; lia. Qed.

Lemma subseq_map {B : Type} (f : A -> B) l l' :
  subseq l l' -> subseq (map f l) (map f l').
Proof.
  induction 1; simpl;
    [apply subseq_nil|apply subseq_skip; assumption|apply subseq_keep; assumption].
Qed.
End SubseqFacts.

(** The sweep only ever keeps or drops whole candidates. *)
Lemma sweep_fold_subseq spans : forall merged seen,
  subseq merged seen ->
  subseq (fold_left sweep_step spans merged) (seen ++ spans).
Proof.
  induction spans as [|s spans IH]; intros merged seen H; simpl.
  - rewrite app_nil_r. exact H.
  - replace (seen ++ s :: spans) with ((seen ++ [s]) ++ spans)
      by (rewrite <- app_assoc; reflexivity).
    apply IH.
    destruct (sweep_step_cases merged s) as [[-> _]|(m & l & -> & _ & [->| ->])].
    + apply subseq_app; [exact H|apply subseq_refl].
    + rewrite <- (app_nil_r (m ++ [l])).
      apply subseq_app; [exact H|apply subseq_skip, subseq_nil].
    + apply subseq_app; [|apply subseq_refl].
      eapply subseq_drop_last. exact H.
Qed.

Lemma merge_spans_subseq text presidio_spans gliner_spans :
  exists out pool,
    merge_spans text presidio_spans gliner_spans = Returns out /\
    Permutation pool (presidio_spans ++ gliner_spans) /\
    subseq out pool.
Proof.
  unfold merge_spans.
  set (tagged := map (tag presidio) presidio_spans ++ map (tag gliner) gliner_spans).
  exists (map span (sweep (sorted_by merge_key pair_leb tagged))),
         (map span (sorted_by merge_key pair_leb tagged)).
  split; [reflexivity|]. split.
  - rewrite <- (sorted_by_perm merge_key pair_leb tagged).
    unfold tagged. rewrite map_app, !map_map. simpl. rewrite !map_id. reflexivity.
  - apply subseq_map. apply (sweep_fold_subseq _ [] []). apply subseq_nil.
Qed.

Lemma StronglySorted_weaken {A : Type} (R R' : A -> A -> Prop) l :
  (forall a b, R a b -> R' a b) -> StronglySorted R l -> StronglySorted R' l.
Proof.
  intros HR. induction 1; constructor; [assumption|].
  eapply Forall_impl; [|eassumption]. auto.
Qed.

Lemma overlap_sym a b : overlap a b = overlap b a.
Proof.
  unfold overlap. rewrite !Z.gtb_ltb. apply andb_comm.
Qed.

(** With nothing to resolve, the sweep accepts every candidate. *)
Lemma sweep_fold_no_conflict spans : forall merged,
  (forall l s, last_opt merged = Some l -> hd_error spans = Some s ->
     overlap (span s) (span l) = false) ->
  Sorted (fun a b => overlap (span b) (span a) = false) spans ->
  fold_left sweep_step spans merged = merged ++ spans.
Proof.
  induction spans as [|s spans IH]; intros merged Hl Hs; simpl.
  - rewrite app_nil_r. reflexivity.
  - inversion Hs as [|? ? Hs' Hhd]; subst.
    assert (E : sweep_step merged s = merged ++ [s]).
    { unfold sweep_step. destruct (last_opt merged) as [l|] eqn:El; [|reflexivity].
      rewrite (Hl l s eq_refl eq_refl). reflexivity. }
    rewrite E, IH, <- app_assoc; [reflexivity| |exact Hs'].
    intros l s' El Es'. rewrite last_opt_snoc in El. injection El as <-.
    destruct spans as [|s'' spans]; [discriminate|].
    injection Es' as <-. inversion Hhd; assumption.
Qed.

Lemma merge_one_list_unchanged (who : source) (S : list Span) :
  Sorted follows S ->
  map span (sweep (sorted_by merge_key pair_leb (map (tag who) S))) = S.
Proof.
  intros HS.
  assert (Hkey : Sorted (fun a b => pair_leb (merge_key a) (merge_key b) = true)
                   (map (tag who) S)).
  { induction HS as [|a l Hl IH Ha]; simpl; constructor; [exact IH|].
    destruct Ha as [|b l [Hab _]]; simpl; constructor. exact Hab. }
  rewrite (sorted_by_id _ _ _ Hkey). unfold sweep.
  rewrite sweep_fold_no_conflict; simpl.
  - rewrite map_map. simpl. apply map_id.
  - discriminate.
  - clear Hkey. induction HS as [|a l Hl IH Ha]; simpl; constructor; [exact IH|].
    destruct Ha as [|b l [_ Hab]]; simpl; constructor. exact Hab.
Qed.

(** * Claims about [merge_spans] *)

(** C1, as stated, fails: a zero-length span that starts where the accepted
    span starts does not satisfy the overlap test and is appended after it,
    so the result [[0,10), [0,0)] has [result[0].end > result[1].start]. *)
Lemma merge_spans_zero_length_not_disjoint :
  exists text p g out i j a b,
    merge_spans text p g = Returns out /\
    (i < j)%nat /\ nth_error out i = Some a /\ nth_error out j = Some b /\
    ~ sp_end a <= sp_start b.
Proof.
  exists (lit "0123456789"), [span_at 0 10], [span_at 0 0],
    [span_at 0 10; span_at 0 0], 0%nat, 1%nat, (span_at 0 10), (span_at 0 0).
  repeat split; simpl; lia.
Qed.

(** C1 (amended): when every input span has [start < end], the list returned
    by [merge_spans] is sorted ascending by start and pairwise
    non-overlapping: for positions [i < j], [result[i].start <=
    result[j].start] and [result[i].end <= result[j].start]. *)
Theorem merge_spans_sorted_disjoint text presidio_spans gliner_spans :
  Forall nonempty presidio_spans -> Forall nonempty gliner_spans ->
  exists out,
    merge_spans text presidio_spans gliner_spans = Returns out /\
    forall i j a b, (i < j)%nat ->
      nth_error out i = Some a -> nth_error out j = Some b ->
      sp_start a <= sp_start b /\ sp_end a <= sp_start b.
Proof.
  intros Hp Hg. unfold merge_spans.
  set (tagged := map (tag presidio) presidio_spans ++ map (tag gliner) gliner_spans).
  set (spans := sorted_by merge_key pair_leb tagged).
  eexists. split; [reflexivity|].
  assert (Hne : Forall (fun t => nonempty (span t)) spans).
  { rewrite Forall_forall. intros t Ht. apply sorted_by_In in Ht.
    unfold tagged in Ht. rewrite in_app_iff, !in_map_iff in Ht.
    rewrite Forall_forall in Hp, Hg.
    destruct Ht as [(s & <- & Hs)|(s & <- & Hs)]; simpl; auto. }
  assert (Hso : StronglySorted (fun a b => start_le (span a) (span b)) spans).
  { eapply StronglySorted_weaken; [|apply sorted_by_sorted].
    - intros a b. apply pair_leb_start.
    - apply pair_leb_total.
    - apply pair_leb_trans. }
  destruct (sweep_fold_sorted spans [] Hso Hne) as [Hs Hn];
    [constructor|constructor|discriminate|].
  fold (sweep spans) in Hs, Hn.
  intros i j a b Hij Ha Hb. rewrite nth_error_map in Ha, Hb.
  destruct (nth_error (sweep spans) i) as [ta|] eqn:Ea; [|discriminate].
  destruct (nth_error (sweep spans) j) as [tb|] eqn:Eb; [|discriminate].
  injection Ha as <-. injection Hb as <-.
  pose proof (StronglySorted_nth _ _ Hs i j ta tb Hij Ea Eb) as Hab.
  rewrite Forall_forall in Hn. pose proof (Hn ta (nth_error_In _ _ Ea)) as Hta.
  unfold before, nonempty in *. lia.
Qed.

Lemma merge_spans_sorted_disjoint_witness :
  exists out,
    merge_spans (lit "0123456789") [span_at 0 10; span_at 2 4] [span_at 5 8]
      = Returns out /\
    forall i j a b, (i < j)%nat ->
      nth_error out i = Some a -> nth_error out j = Some b ->
      sp_start a <= sp_start b /\ sp_end a <= sp_start b.
Proof.
  apply merge_spans_sorted_disjoint;
    repeat constructor; unfold nonempty; simpl; lia.
Defined.

(** C2: when a presidio span and a gliner span overlap, the sweep keeps the
    presidio span and drops the gliner span whatever their scores and
    lengths: a gliner candidate against an accepted presidio span leaves
    [merged] as it is, a presidio candidate against an accepted gliner span
    replaces it, and merging the two spans alone returns the presidio span
    only. *)
Theorem presidio_beats_gliner (text : str) (merged : list Tagged) (p g : Span) :
  overlap p g = true ->
  sweep_step (merged ++ [tag presidio p]) (tag gliner g)
    = merged ++ [tag presidio p] /\
  sweep_step (merged ++ [tag gliner g]) (tag presidio p)
    = merged ++ [tag presidio p] /\
  merge_spans text [p] [g] = Returns [p].
Proof.
  intros Ho.
  assert (Ho' : overlap g p = true) by (rewrite overlap_sym; exact Ho).
  assert (H1 : forall m, sweep_step (m ++ [tag presidio p]) (tag gliner g)
                         = m ++ [tag presidio p]).
  { intros m. unfold sweep_step. rewrite last_opt_snoc. simpl.
    rewrite Ho'. reflexivity. }
  assert (H2 : forall m, sweep_step (m ++ [tag gliner g]) (tag presidio p)
                         = m ++ [tag presidio p]).
  { intros m. unfold sweep_step. rewrite last_opt_snoc, set_last_snoc. simpl.
    rewrite Ho. reflexivity. }
  split; [apply H1|]. split; [apply H2|].
  unfold merge_spans. cbn [map app sorted_by insert_by].
  destruct (pair_leb (merge_key (tag presidio p)) (merge_key (tag gliner g)));
    unfold sweep; cbn [fold_left].
  - change (sweep_step [] (tag presidio p)) with ([] ++ [tag presidio p]).
    rewrite H1. reflexivity.
  - change (sweep_step [] (tag gliner g)) with ([] ++ [tag gliner g]).
    rewrite H2. reflexivity.
Qed.

Lemma presidio_beats_gliner_witness :
  let p := span_at 0 10 in
  let g := mkSpan [] [] 5 8 (Some (99 # 100)%Q) None in
  sweep_step [tag presidio p] (tag gliner g) = [tag presidio p] /\
  sweep_step [tag gliner g] (tag presidio p) = [tag presidio p] /\
  merge_spans (lit "0123456789") [p] [g] = Returns [p].
Proof.
  intros p g.
  exact (presidio_beats_gliner (lit "0123456789") [] p g eq_refl).
Defined.

(** C4, as stated, fails: [merge_spans] validates nothing; an inverted,
    out-of-bounds span comes back as the result. *)
Lemma merge_spans_accepts_malformed :
  merge_spans (lit "abc") [span_at 10 5] [] = Returns [span_at 10 5] /\
  merge_spans (lit "abc") [span_at 10 5] [] <> Raises ValidationError.
Proof. split; [reflexivity|discriminate]. Qed.

(** C4 (amended): [merge_spans] rejects no input: for every text and every
    pair of span lists it returns a list, every member of which is an input
    span with its offsets as given (nothing is clamped); a span that is the
    only input is returned as it is, malformed or not. *)
Theorem merge_spans_never_rejects :
  (forall text presidio_spans gliner_spans,
     exists out,
       merge_spans text presidio_spans gliner_spans = Returns out /\
       forall s, In s out -> In s presidio_spans \/ In s gliner_spans) /\
  (forall text s,
     merge_spans text [s] [] = Returns [s] /\
     merge_spans text [] [s] = Returns [s]).
Proof.
  split.
  - intros text p g.
    destruct (merge_spans_subseq text p g) as (out & pool & E & Hp & Hs).
    exists out. split; [exact E|]. intros s Hin.
    apply in_app_iff. eapply Permutation_in; [exact Hp|].
    eapply subseq_In; eassumption.
  - intros text s. split; reflexivity.
Qed.

(** C9, as stated, fails: a list of disjoint spans that is not in start
    order comes back sorted, and a zero-length span that precedes a span
    with the same start comes back after it. *)
Lemma merge_single_source_reorders :
  (let S := [span_at 5 6; span_at 0 1] in
   overlap (span_at 5 6) (span_at 0 1) = false /\
   overlap (span_at 0 1) (span_at 5 6) = false /\
   merge_spans (lit "0123456789") S [] = Returns [span_at 0 1; span_at 5 6] /\
   merge_spans (lit "0123456789") S [] <> Returns S) /\
  (let S := [span_at 0 0; span_at 0 5] in
   before (span_at 0 0) (span_at 0 5) /\
   overlap (span_at 0 0) (span_at 0 5) = false /\
   overlap (span_at 0 5) (span_at 0 0) = false /\
   merge_spans (lit "0123456789") S [] = Returns [span_at 0 5; span_at 0 0] /\
   merge_spans (lit "0123456789") S [] <> Returns S).
Proof.
  split; cbv zeta; repeat split; try reflexivity; discriminate.
Qed.

(** C9 (amended): for every span list [S] that is already in sweep order
    (start ascending, among equal starts the later end first) and in which
    no span overlaps the span after it, merging [S] as the only source,
    either as the presidio list or as the gliner list, returns [S]
    unchanged. *)
Theorem merge_single_source_unchanged text (S : list Span) :
  Sorted follows S ->
  merge_spans text S [] = Returns S /\ merge_spans text [] S = Returns S.
Proof.
  intros HS. unfold merge_spans. simpl. rewrite app_nil_r.
  rewrite !merge_one_list_unchanged by exact HS. split; reflexivity.
Qed.

Lemma merge_single_source_unchanged_witness :
  let S := [span_at 0 5; span_at 5 7; span_at 10 15] in
  merge_spans (lit "0123456789abcdef") S [] = Returns S /\
  merge_spans (lit "0123456789abcdef") [] S = Returns S.
Proof.
  intros S. apply merge_single_source_unchanged.
  repeat constructor.
Defined.

(** Non-empty spans, each ending no later than the next one starts, are in
    sweep order and free of conflicts. *)
Lemma disjoint_ascending_follows (S : list Span) :
  Forall nonempty S -> Sorted before S -> Sorted follows S.
Proof.
  intros Hn Hs. induction Hs as [|a l Hl IH Ha]; constructor.
  - apply IH. inversion Hn; assumption.
  - inversion Hn as [|? ? Hna Hnl]; subst.
    destruct Ha as [|b l Hab]; constructor.
    inversion Hnl as [|? ? Hnb _]; subst.
    unfold follows, sweep_order, pair_leb, overlap, before, nonempty in *. simpl.
    rewrite Z.gtb_ltb. split.
    + apply orb_true_iff. left. apply Z.ltb_lt. lia.
    + apply andb_false_iff. left. apply Z.ltb_ge. lia.
Qed.

(** C10: every span returned by [merge_spans] is one of the input spans,
    all fields as given; more precisely the result is obtained from a
    rearrangement of the input spans by dropping some of them, so no span
    is trimmed, split, duplicated or made up. *)
Theorem merge_spans_selects_inputs text presidio_spans gliner_spans :
  exists out pool,
    merge_spans text presidio_spans gliner_spans = Returns out /\
    Permutation pool (presidio_spans ++ gliner_spans) /\
    subseq out pool /\
    forall s, In s out -> In s presidio_spans \/ In s gliner_spans.
Proof.
  destruct (merge_spans_subseq text presidio_spans gliner_spans)
    as (out & pool & E & Hp & Hs).
  exists out, pool. repeat split; try assumption.
  intros s Hin. apply in_app_iff. eapply Permutation_in; [exact Hp|].
  eapply subseq_In; eassumption.
Qed.

(** * Reconstruction *)

Section SliceFacts.
Context {A : Type}.
Implicit Types (s : list A).

Lemma slice_bound_le n x : (slice_bound n x <= n)%nat.
Proof. unfold slice_bound. destruct (Z.ltb_spec x 0); lia. Qed.

Lemma slice_bound_mono n a b :
  0 <= a <= b -> (slice_bound n a <= slice_bound n b)%nat.
Proof.
  unfold slice_bound. intros H.
  destruct (Z.ltb_spec a 0), (Z.ltb_spec b 0); lia.
Qed.

Lemma slice_bound_in_range n x :
  0 <= x <= Z.of_nat n -> slice_bound n x = Z.to_nat x.
Proof. unfold slice_bound. intros H. destruct (Z.ltb_spec x 0); lia. Qed.

Lemma substr_skipn s a b :
  (a <= b)%nat -> substr s a b ++ skipn b s = skipn a s.
Proof.
  intros H. unfold substr.
  replace (skipn b s) with (skipn (b - a) (skipn a s)).
  - apply firstn_skipn.
  - rewrite skipn_skipn. f_equal. lia.
Qed.

(** A slice followed by the rest of the text is the text from the slice's
    start on. *)
Lemma py_slice_join s a b :
  0 <= a <= b -> py_slice s a b ++ py_slice_from s b = py_slice_from s a.
Proof.
  intros H. unfold py_slice, py_slice_from.
  apply substr_skipn. apply slice_bound_mono. exact H.
Qed.

Lemma py_slice_from_0 s : py_slice_from s 0 = s.
Proof.
  unfold py_slice_from. rewrite slice_bound_in_range by lia. reflexivity.
Qed.
End SliceFacts.

Lemma redaction_fold text spans : forall out i,
  let '(out', i') := fold_left (redaction_step text) spans (out, i) in
  concat (out' ++ [py_slice_from text i'])
  = concat out ++ weave get_replacement text i spans.
Proof.
  induction spans as [|s spans IH]; intros out i; simpl.
  - rewrite concat_app. simpl. rewrite app_nil_r. reflexivity.
  - specialize (IH (out ++ [py_slice text i (sp_start s); get_replacement s])
                   (sp_end s)).
    destruct (fold_left _ _ _) as [out' i'].
    rewrite IH, concat_app. simpl. rewrite app_nil_r, <- !app_assoc. reflexivity.
Qed.

Lemma weave_covered text spans : forall i,
  0 <= i -> laid_out i spans ->
  weave (covered text) text i spans = py_slice_from text i.
Proof.
  induction spans as [|s spans IH]; intros i Hi H; simpl.
  - reflexivity.
  - destruct H as (H1 & H2 & H3). rewrite IH by (assumption || lia).
    unfold covered. rewrite py_slice_join by lia. apply py_slice_join. lia.
Qed.

Lemma laid_out_sorted spans : forall i,
  laid_out i spans -> Sorted start_le spans.
Proof.
  induction spans as [|s spans IH]; intros i H; constructor.
  - destruct H as (_ & _ & H). eapply IH. exact H.
  - destruct H as (_ & H1 & H2). destruct spans as [|s' spans]; constructor.
    destruct H2 as (H2 & _). unfold start_le. lia.
Qed.

Lemma sorted_by_start_id spans :
  Sorted start_le spans -> sorted_by sp_start Z.leb spans = spans.
Proof.
  intros H. apply sorted_by_id.
  induction H as [|a l Hl IH Ha]; constructor; [exact IH|].
  destruct Ha as [|b l Hab]; constructor. apply Z.leb_le. exact Hab.
Qed.

(** C5: for every text and every span list in start order,
    [apply_redactions] returns the slice before each span followed by that
    span's replacement, in span order, and then the tail after the last
    span.  When the spans are moreover non-overlapping spans of the data
    model ([0 <= start <= end], each ending no later than the next one
    starts), putting the covered text back in place of each replacement
    gives the original text: everything outside the spans is kept as it is
    and each span contributes exactly one replacement, in order. *)
Theorem apply_redactions_weave text spans :
  Sorted start_le spans ->
  apply_redactions text spans = Returns (weave get_replacement text 0 spans) /\
  (laid_out 0 spans -> weave (covered text) text 0 spans = text).
Proof.
  intros H. split.
  - unfold apply_redactions. destruct spans as [|s spans].
    { simpl. rewrite py_slice_from_0. reflexivity. }
    rewrite (sorted_by_start_id _ H).
    pose proof (redaction_fold text (s :: spans) [] 0) as E.
    destruct (fold_left _ _ _) as [out' i']. rewrite E. reflexivity.
  - intros Hl. rewrite weave_covered by (assumption || lia).
    apply py_slice_from_0.
Qed.

Lemma apply_redactions_weave_witness :
  let text := lit "John lives in Rome!!" in
  let spans := [mkSpan (lit "A") (lit "John ") 0 5 None (Some (lit "[A]"));
                mkSpan (lit "B") (lit " in R") 10 15 None (Some (lit "[B]"))] in
  laid_out 0 spans /\
  apply_redactions text spans = Returns (lit "[A]lives[B]ome!!") /\
  weave (covered text) text 0 spans = text.
Proof.
  intros text spans.
  assert (Hl : laid_out 0 spans) by (simpl; lia).
  assert (Hs : Sorted start_le spans)
    by (repeat constructor; unfold start_le; simpl; lia).
  destruct (apply_redactions_weave text spans Hs) as [H1 H2].
  split; [exact Hl|]. split; [exact H1|exact (H2 Hl)].
Defined.

(** C3, as stated, fails: neither reconstruction raises on an inverted or
    out-of-bounds span.  [apply_redactions] slices with the offsets as they
    come, and [redact_ranges] clamps them to the text. *)
Lemma reconstruct_accepts_malformed :
  apply_redactions (lit "hello world!")
      [mkSpan [] [] 10 5 None (Some (lit "[X]"))]
    = Returns (lit "hello worl[X] world!") /\
  redact_ranges (lit "hello world!") [(10, 5)] (lit "[TOXIC]")
    = Returns (lit "hello worl[TOXIC] world!") /\
  redact_ranges (lit "abc") [(1, 50)] (lit "[TOXIC]")
    = Returns (lit "a[TOXIC]") /\
  apply_redactions (lit "hello world!")
      [mkSpan [] [] 10 5 None (Some (lit "[X]"))]
    <> Raises ValidationError /\
  redact_ranges (lit "hello world!") [(10, 5)] (lit "[TOXIC]")
    <> Raises ValidationError.
Proof. repeat split; try reflexivity; discriminate. Qed.

Lemma clamp_range text x : 0 <= clamp text x <= Z.of_nat (length text).
Proof. unfold clamp. lia. Qed.

(** C3 (amended): no span makes the reconstruction raise.  For every text
    and span list [apply_redactions] and [redact_ranges] return a string.
    [apply_redactions] uses the offsets as given as slice bounds, so a
    single span [(start, end)] yields [text[0:start] + replacement +
    text[end:]] also when [end <= start] or an offset is out of range;
    [redact_ranges] first clamps both offsets of a range into [0,
    len(text)], so a single range [(s, e)] yields the first [clamp s]
    characters, the token, and the text from [clamp e] on.  Offsets are
    never swapped. *)
Theorem reconstruct_never_raises :
  (forall text spans, exists out, apply_redactions text spans = Returns out) /\
  (forall text ranges token,
     exists out, redact_ranges text ranges token = Returns out) /\
  (forall text s,
     apply_redactions text [s]
     = Returns (py_slice text 0 (sp_start s) ++ get_replacement s
                ++ py_slice_from text (sp_end s))) /\
  (forall text s e token,
     redact_ranges text [(s, e)] token
     = Returns (firstn (Z.to_nat (clamp text s)) text ++ token
                ++ skipn (Z.to_nat (clamp text e)) text)).
Proof.
  repeat split.
  - intros text spans. unfold apply_redactions.
    destruct spans; [eexists; reflexivity|].
    destruct (fold_left _ _ _). eexists; reflexivity.
  - intros text ranges token. unfold redact_ranges.
    destruct ranges; [eexists; reflexivity|].
    destruct (fold_left _ _ _). eexists; reflexivity.
  - intros text s. unfold apply_redactions. simpl.
    rewrite app_nil_r. reflexivity.
  - intros text s e token. unfold redact_ranges. simpl.
    pose proof (clamp_range text s) as Hs. pose proof (clamp_range text e) as He.
    destruct (Z.ltb_spec (clamp text s) 0); [lia|]. simpl.
    rewrite app_nil_r. unfold py_slice, py_slice_from, substr.
    rewrite !slice_bound_in_range by lia. simpl.
    rewrite Nat.sub_0_r. reflexivity.
Qed.

(** * Sentence offsets *)

Lemma prefixb_app sub rest : prefixb sub (sub ++ rest) = true.
Proof.
  induction sub as [|a sub IH]; simpl; [reflexivity|].
  rewrite Ascii.eqb_refl. exact IH.
Qed.

Lemma prefixb_firstn sub : forall rest,
  prefixb sub rest = true -> firstn (length sub) rest = sub.
Proof.
  induction sub as [|a sub IH]; intros rest H; simpl; [reflexivity|].
  destruct rest as [|b rest]; simpl in H; [discriminate|].
  apply andb_true_iff in H. destruct H as [Hab H].
  apply Ascii.eqb_eq in Hab. subst b. rewrite (IH _ H). reflexivity.
Qed.

(** If [sub] occurs in [rest] after the gap [G], the scan stops at that
    occurrence or at an earlier one. *)
Lemma find_at_found sub rest' : forall G i,
  exists k, (k <= length G)%nat /\
    find_at (G ++ sub ++ rest') sub i = i + Z.of_nat k /\
    firstn (length sub) (skipn k (G ++ sub ++ rest')) = sub.
Proof.
  induction G as [|c G IH]; intros i.
  - exists 0%nat. simpl. split; [lia|].
    assert (E : find_at (sub ++ rest') sub i = i).
    { destruct (sub ++ rest') eqn:E0; simpl; rewrite <- ?E0, prefixb_app;
        reflexivity. }
    rewrite E. split; [lia|]. apply prefixb_firstn, prefixb_app.
  - destruct (prefixb sub ((c :: G) ++ sub ++ rest')) eqn:Hp.
    + exists 0%nat. split; [lia|]. split.
      * simpl. simpl in Hp. rewrite Hp. lia.
      * apply prefixb_firstn. exact Hp.
    + destruct (IH (i + 1)) as (k & Hk & Hf & Hs).
      exists (S k). split; [simpl; lia|]. split.
      * simpl. simpl in Hp. rewrite Hp, Hf. lia.
      * exact Hs.
Qed.

Lemma py_find_found text sub c G rest' :
  0 <= c <= Z.of_nat (length text) ->
  skipn (Z.to_nat c) text = G ++ sub ++ rest' ->
  exists k, (k <= length G)%nat /\
    py_find text sub c = c + Z.of_nat k /\
    py_slice text (c + Z.of_nat k) (c + Z.of_nat k + Z.of_nat (length sub)) = sub.
Proof.
  intros Hc Hs. unfold py_find.
  destruct (Z.ltb_spec (Z.of_nat (length text)) c); [lia|].
  rewrite slice_bound_in_range by lia. rewrite Hs.
  destruct (find_at_found sub rest' G (Z.of_nat (Z.to_nat c))) as (k & Hk & Hf & Hp).
  exists k. split; [exact Hk|]. split; [rewrite Hf; lia|].
  assert (Hlen : (Z.to_nat c + length G + length sub <= length text)%nat).
  { assert (E : length (skipn (Z.to_nat c) text)
                = length (G ++ sub ++ rest')) by (rewrite Hs; reflexivity).
    rewrite length_skipn, !length_app in E. lia. }
  unfold py_slice, substr. rewrite !slice_bound_in_range by lia.
  replace (Z.to_nat (c + Z.of_nat k + Z.of_nat (length sub))
           - Z.to_nat (c + Z.of_nat k))%nat with (length sub) by lia.
  replace (Z.to_nat (c + Z.of_nat k)) with (k + Z.to_nat c)%nat by lia.
  rewrite <- skipn_skipn, Hs. exact Hp.
Qed.

Lemma sentence_fold_exact text tail pieces : forall pre out c,
  text = pre ++ interleave pieces tail ->
  0 <= c <= Z.of_nat (length pre) ->
  Forall (exact_span text) out ->
  Forall (exact_span text)
    (fst (fold_left (sentence_step text) (map snd pieces) (out, c))).
Proof.
  induction pieces as [|[gap sentence] pieces IH]; intros pre out c Ht Hc Ho.
  - exact Ho.
  - simpl in Ht. cbn [map snd fold_left sentence_step].
    assert (Hlen : length text
                   = (length pre + length gap + length sentence
                      + length (interleave pieces tail))%nat).
    { rewrite Ht, !length_app. lia. }
    assert (Hs : skipn (Z.to_nat c) text
                 = (skipn (Z.to_nat c) pre ++ gap) ++ sentence
                   ++ interleave pieces tail).
    { rewrite Ht, skipn_app.
      replace (Z.to_nat c - length pre)%nat with 0%nat by lia.
      simpl. rewrite <- app_assoc. reflexivity. }
    destruct (py_find_found text sentence c _ _ ltac:(lia) Hs)
      as (k & Hk & Hf & Hp).
    rewrite length_app, length_skipn in Hk.
    rewrite Hf. destruct (Z.eqb_spec (c + Z.of_nat k) (-1)); [lia|].
    apply (IH (pre ++ gap ++ sentence)).
    + rewrite Ht, <- !app_assoc. reflexivity.
    + rewrite !length_app. lia.
    + apply Forall_app. split; [exact Ho|]. constructor; [|constructor].
      unfold exact_span. split; [lia|]. split; [lia|exact Hp].
Qed.

(** C8, as stated, fails: when a sentence is not found from the cursor on,
    the span starts at the cursor and has the sentence's length, whatever
    the text holds there.  A tokenizer that turns the two blanks of
    ["a  b."] into one yields the span [(0, 4, "a b.")] although
    [text[0:4]] is ["a  b"]; sentences returned out of order yield a span
    that ends past the text. *)
Lemma sentence_fallback_misaligned :
  (let text := lit "a  b." in
   sentences_with_offsets (fun _ => [lit "a b."]) text
     = Returns [(0, 4, lit "a b.")] /\
   py_slice text 0 4 <> lit "a b.") /\
  (let text := lit "ab" in
   sentences_with_offsets (fun _ => [lit "b"; lit "a"]) text
     = Returns [(1, 2, lit "b"); (2, 3, lit "a")] /\
   ~ 3 <= Z.of_nat (length text)).
Proof.
  split; cbv zeta; split; try reflexivity; [discriminate|simpl; lia].
Qed.

(** C8 (amended): when the sentences returned by the tokenizer occur
    verbatim in the text, in order and without overlapping (the text is a
    gap, the first sentence, a gap, the second sentence, and so on),
    [sentences_with_offsets] returns, and every triple [(start, end,
    sentence)] it returns satisfies [0 <= start <= end <= len(text)] and
    [text[start:end] == sentence]. *)
Theorem sentences_with_offsets_exact
    (sent_tokenize : str -> list str) (pieces : list (str * str)) (tail : str) :
  sent_tokenize (interleave pieces tail) = map snd pieces ->
  exists out,
    sentences_with_offsets sent_tokenize (interleave pieces tail) = Returns out /\
    Forall (exact_span (interleave pieces tail)) out.
Proof.
  intros Htok. set (text := interleave pieces tail) in *.
  unfold sentences_with_offsets. destruct (strip text).
  - exists []. split; [reflexivity|constructor].
  - rewrite Htok.
    pose proof (sentence_fold_exact text tail pieces [] [] 0 eq_refl
                  ltac:(simpl; lia) (Forall_nil _)) as H.
    destruct (fold_left _ _ _) as [out c]. simpl in H.
    destruct out as [|sp out].
    + eexists. split; [reflexivity|]. constructor; [|constructor].
      unfold exact_span. split; [lia|]. split; [lia|].
      unfold py_slice, substr. rewrite !slice_bound_in_range by lia.
      rewrite Nat2Z.id. simpl. rewrite Nat.sub_0_r. apply firstn_all.
    + eexists. split; [reflexivity|exact H].
Qed.

Lemma sentences_with_offsets_exact_witness :
  let tok := fun _ : str => [lit "Hello."; lit "World."] in
  let text := lit "Hello. World." in
  exists out,
    sentences_with_offsets tok text = Returns out /\
    Forall (exact_span text) out.
Proof.
  intros tok text.
  exact (sentences_with_offsets_exact tok
           [([], lit "Hello."); (lit " ", lit "World.")] [] eq_refl).
Defined.

(** * The diff scan *)

Lemma run_end_S text censored fuel j :
  run_end text censored (S fuel) j
  = if (j <? length text)%nat then
      d <- differ_at text censored j ;;
      if d then run_end text censored fuel (S j) else Returns j
    else Returns j.
Proof. reflexivity. Qed.

Lemma scan_S text censored fuel i spans :
  scan text censored (S fuel) i spans
  = if (i <? length text)%nat then
      d <- differ_at text censored i ;;
      if d then
        j <- run_end text censored (S (length text)) i ;;
        scan text censored fuel j (spans ++ [mkTok (substr text i j) i j])
      else scan text censored fuel (S i) spans
    else Returns spans.
Proof. reflexivity. Qed.

Section ScanEqualLength.
Variables text censored : str.
Hypothesis same_length : length text = length censored.

Let n := length text.
Let D := neq_at text censored.

Lemma differ_at_neq i :
  (i < n)%nat -> differ_at text censored i = Returns (D i).
Proof.
  intros Hi. unfold differ_at, D, neq_at.
  destruct (nth_error text i) eqn:Et.
  - destruct (nth_error censored i) eqn:Ec; [reflexivity|].
    apply nth_error_None in Ec. unfold n in Hi. lia.
  - apply nth_error_None in Et. unfold n in Hi. lia.
Qed.

Lemma neq_at_past i : (n <= i)%nat -> D i = false.
Proof.
  intros Hi. unfold D, neq_at.
  destruct (nth_error text i) eqn:Et; [|reflexivity].
  assert (nth_error text i <> None) by congruence.
  apply nth_error_Some in H. unfold n in Hi. lia.
Qed.

(** The inner loop stops at the end of the run that [j] is in. *)
Lemma run_end_spec fuel : forall j,
  (j <= n)%nat -> (n - j < fuel)%nat ->
  exists j',
    run_end text censored fuel j = Returns j' /\
    (j <= j' <= n)%nat /\
    (forall i, (j <= i < j')%nat -> D i = true) /\
    D j' = false.
Proof.
  induction fuel as [|fuel IH]; intros j Hj Hf; [lia|].
  rewrite run_end_S. fold n. destruct (Nat.ltb_spec j n) as [Hlt|Hge].
  - rewrite differ_at_neq by exact Hlt. cbn [bind].
    destruct (D j) eqn:Ed.
    + destruct (IH (S j)) as (j' & E & Hb & Hall & Hend); [lia|lia|].
      exists j'. split; [exact E|]. split; [lia|]. split; [|exact Hend].
      intros i Hi. destruct (Nat.eq_dec i j) as [->|]; [exact Ed|].
      apply Hall. lia.
    + exists j. split; [reflexivity|]. split; [lia|]. split; [|exact Ed].
      intros i Hi. lia.
  - exists j. split; [reflexivity|]. split; [lia|]. split.
    + intros i Hi. lia.
    + apply neq_at_past. exact Hge.
Qed.

(** Two maximal runs with the same start have the same end. *)
Lemma run_end_unique s e j :
  (s <= j <= n)%nat ->
  (forall i, (s <= i < j)%nat -> D i = true) -> D j = false ->
  maximal_run text censored s e -> e = j.
Proof.
  intros Hj Hall Hend (Hb & Hrun & _ & He). fold D in Hrun, He. fold n in Hb, He.
  destruct (Nat.lt_trichotomy e j) as [H|[H|H]]; [|exact H|].
  - destruct He as [He|He]; [lia|].
    rewrite Hall in He by lia. discriminate.
  - rewrite Hrun in Hend by lia. discriminate.
Qed.

Lemma scan_spec fuel : forall i acc,
  (i <= n)%nat -> (n - i < fuel)%nat ->
  (i = 0%nat \/ D (i - 1) = false \/ D i = false) ->
  exists l,
    scan text censored fuel i acc = Returns (acc ++ l) /\
    runs_from text censored i l.
Proof.
  induction fuel as [|fuel IH]; intros i acc Hi Hf HB; [lia|].
  rewrite scan_S. destruct (Nat.ltb_spec i (length text)) as [Hlt|Hge].
  - rewrite differ_at_neq by exact Hlt. cbn [bind].
    destruct (D i) eqn:Ed.
    + (* a run starts at [i] *)
      destruct (run_end_spec (S n) i) as (j & E & Hb & Hall & Hend); [lia|lia|].
      unfold n in E at 1. rewrite E. cbn [bind].
      assert (Hij : (i < j)%nat).
      { destruct (Nat.eq_dec i j) as [->|]; [congruence|lia]. }
      assert (Hmax : maximal_run text censored i j).
      { split; [fold n; lia|]. split; [exact Hall|]. split.
        - destruct HB as [HB|[HB|HB]]; [left; exact HB|right; exact HB|congruence].
        - right. exact Hend. }
      destruct (IH j (acc ++ [mkTok (substr text i j) i j]))
        as (l & El & Hl & Hsorted); [lia|lia|right; right; exact Hend|].
      exists (mkTok (substr text i j) i j :: l). split.
      { rewrite El, <- app_assoc. reflexivity. }
      split.
      * intros sp. split.
        -- intros [<-|Hin]; simpl.
           ++ split; [exact Hmax|]. split; [lia|reflexivity].
           ++ apply Hl in Hin. destruct Hin as (H1 & H2 & H3).
              split; [exact H1|]. split; [lia|exact H3].
        -- intros (H1 & H2 & H3).
           destruct (Nat.lt_trichotomy (tok_start sp) j) as [H|H].
           ++ left. destruct (Nat.eq_dec (tok_start sp) i) as [Es|Ns].
              ** assert (Ee : tok_end sp = j).
                 { apply (run_end_unique i (tok_end sp) j);
                     [lia|exact Hall|exact Hend|rewrite <- Es; exact H1]. }
                 destruct sp as [t s e]. simpl in *. subst. reflexivity.
              ** destruct H1 as (_ & _ & [H1|H1] & _); [lia|].
                 fold D in H1. rewrite Hall in H1 by lia. discriminate.
           ++ right. apply Hl. split; [exact H1|]. split; [lia|exact H3].
      * constructor; [exact Hsorted|].
        rewrite Forall_forall. intros sp Hin. apply Hl in Hin. simpl. lia.
    + (* no run starts at [i] *)
      destruct (IH (S i) acc) as (l & El & Hl & Hsorted);
        [lia|lia|right; left; simpl; rewrite Nat.sub_0_r; exact Ed|].
      exists l. split; [exact El|]. split; [|exact Hsorted].
      intros sp. split.
      * intros Hin. apply Hl in Hin. destruct Hin as (H1 & H2 & H3).
        split; [exact H1|]. split; [lia|exact H3].
      * intros (H1 & H2 & H3). apply Hl. split; [exact H1|]. split; [|exact H3].
        destruct (Nat.eq_dec (tok_start sp) i) as [Es|]; [|lia].
        destruct H1 as (Hb & Hrun & _). fold D in Hrun.
        rewrite <- Es, Hrun in Ed by lia. discriminate.
  - exists []. split; [rewrite app_nil_r; reflexivity|]. split; [|constructor].
    intros sp. split; [intros []|].
    intros ((Hb & _) & H2 & _). fold n in Hb. simpl. lia.
Qed.

Lemma diff_spans_spec :
  exists spans,
    diff_spans text censored = Returns spans /\ diff_runs text censored spans.
Proof.
  destruct (scan_spec (S n) 0 []) as (l & E & Hl & Hsorted); [lia|lia|auto|].
  exists l. split; [exact E|]. split; [|exact Hsorted].
  intros sp. rewrite Hl. split.
  - intros (H1 & _ & H3). auto.
  - intros (H1 & H3). split; [exact H1|]. split; [lia|exact H3].
Qed.
End ScanEqualLength.

(** ** One replaced substring *)

Section OneReplacement.
Variables pre a b post : str.
Hypothesis replaced : Forall2 (fun x y : ascii => x <> y) a b.
Hypothesis not_empty : a <> [].

Let text := pre ++ a ++ post.
Let censored := pre ++ b ++ post.
Let lo := length pre.
Let hi := (length pre + length a)%nat.

Lemma replaced_length : length a = length b.
Proof. eapply Forall2_length. exact replaced. Qed.

Lemma replaced_same_length : length text = length censored.
Proof. unfold text, censored. rewrite !length_app, replaced_length. reflexivity. Qed.

Lemma Forall2_neq_nth : forall (u v : str) k x y,
  Forall2 (fun x y : ascii => x <> y) u v ->
  nth_error u k = Some x -> nth_error v k = Some y -> x <> y.
Proof.
  intros u v k x y H. revert k. induction H as [|x0 y0 u v Hxy H IH]; intros k Hx Hy.
  - destruct k; discriminate.
  - destruct k as [|k]; simpl in Hx, Hy.
    + congruence.
    + eapply IH; eassumption.
Qed.

Lemma neq_at_inside i :
  (lo <= i < hi)%nat -> neq_at text censored i = true.
Proof.
  intros Hi. unfold neq_at, text, censored, lo, hi in *.
  pose proof replaced_length as Hlen.
  rewrite !(nth_error_app2 pre) by lia.
  rewrite !nth_error_app1 by lia.
  destruct (nth_error a (i - length pre)) as [x|] eqn:Ex.
  - destruct (nth_error b (i - length pre)) as [y|] eqn:Ey.
    + apply negb_true_iff, Ascii.eqb_neq.
      eapply Forall2_neq_nth; eassumption.
    + apply nth_error_None in Ey. lia.
  - apply nth_error_None in Ex. lia.
Qed.

Lemma neq_at_outside i :
  (i < lo \/ hi <= i)%nat -> neq_at text censored i = false.
Proof.
  intros Hi. unfold neq_at, text, censored, lo, hi in *.
  pose proof replaced_length as Hlen.
  destruct Hi as [Hi|Hi].
  - rewrite !(nth_error_app1 pre) by lia.
    destruct (nth_error pre i); [|reflexivity].
    rewrite Ascii.eqb_refl. reflexivity.
  - rewrite !(nth_error_app2 pre) by lia.
    rewrite (nth_error_app2 a), (nth_error_app2 b) by lia.
    rewrite <- Hlen.
    destruct (nth_error post _); [|reflexivity].
    rewrite Ascii.eqb_refl. reflexivity.
Qed.

Lemma neq_at_cases i :
  neq_at text censored i = true -> (lo <= i < hi)%nat.
Proof.
  intros H. destruct (Nat.lt_ge_cases i lo) as [Hl|Hl].
  - rewrite neq_at_outside in H by lia. discriminate.
  - destruct (Nat.lt_ge_cases i hi) as [Hh|Hh]; [lia|].
    rewrite neq_at_outside in H by lia. discriminate.
Qed.

Lemma substr_replaced : substr text lo hi = a.
Proof.
  unfold substr, text, lo, hi.
  rewrite skipn_app, skipn_all, Nat.sub_diag. simpl.
  replace (length pre + length a - length pre)%nat with (length a) by lia.
  rewrite firstn_app, firstn_all, Nat.sub_diag. simpl. apply app_nil_r.
Qed.

Lemma replaced_run s e :
  maximal_run text censored s e <-> s = lo /\ e = hi.
Proof.
  assert (Hne : (lo < hi)%nat).
  { unfold lo, hi. destruct a; [contradiction not_empty; reflexivity|simpl; lia]. }
  split.
  - intros (Hb & Hrun & Hs & He).
    pose proof (neq_at_cases s (Hrun s ltac:(lia))) as Hs1.
    pose proof (neq_at_cases (e - 1) (Hrun (e - 1)%nat ltac:(lia))) as He1.
    split.
    + destruct (Nat.eq_dec s lo) as [|Hn]; [assumption|].
      destruct Hs as [Hs|Hs]; [lia|].
      rewrite neq_at_inside in Hs by lia. discriminate.
    + destruct (Nat.eq_dec e hi) as [|Hn]; [assumption|].
      destruct He as [He|He].
      * unfold text, hi in *. rewrite !length_app in He. lia.
      * rewrite neq_at_inside in He by lia. discriminate.
  - intros [-> ->]. split; [|split; [|split]].
    + split; [exact Hne|]. unfold hi, text. rewrite !length_app. lia.
    + intros i Hi. apply neq_at_inside. exact Hi.
    + destruct lo eqn:E; [left; reflexivity|right].
      apply neq_at_outside. lia.
    + right. apply neq_at_outside. lia.
Qed.

Lemma diff_spans_one_replacement :
  diff_spans text censored = Returns [mkTok a lo hi].
Proof.
  destruct (diff_spans_spec text censored replaced_same_length)
    as (spans & E & Hin & Hsorted).
  rewrite E. f_equal.
  assert (Hall : forall sp, In sp spans -> sp = mkTok a lo hi).
  { intros sp H. apply Hin in H. destruct H as (Hrun & Htok).
    apply replaced_run in Hrun. destruct Hrun as [Hs He].
    destruct sp as [t s e]. simpl in *. subst s e.
    rewrite substr_replaced in Htok. subst t. reflexivity. }
  assert (Hone : In (mkTok a lo hi) spans).
  { apply Hin. simpl. split; [apply replaced_run; auto|].
    symmetry. apply substr_replaced. }
  destruct spans as [|x spans]; [destruct Hone|].
  rewrite (Hall x) by (left; reflexivity).
  destruct spans as [|y spans]; [reflexivity|].
  exfalso. inversion Hsorted as [|? ? _ Hx]; subst.
  inversion Hx as [|? ? Hxy _]; subst.
  rewrite (Hall x), (Hall y) in Hxy by (simpl; auto). simpl in Hxy.
  unfold lo, hi in Hxy. destruct a; [contradiction not_empty; reflexivity|].
  simpl in Hxy. lia.
Qed.
End OneReplacement.

(** ** Strings of different lengths *)

Section ScanShorter.
Variables text censored : str.
Hypothesis shorter : (length censored < length text)%nat.

Lemma differ_at_end : differ_at text censored (length censored) = Raises IndexError.
Proof.
  unfold differ_at.
  replace (nth_error censored (length censored)) with (@None ascii)
    by (symmetry; apply nth_error_None; lia).
  destruct (nth_error text (length censored)); reflexivity.
Qed.

Lemma differ_at_before i :
  (i < length censored)%nat ->
  exists d, differ_at text censored i = Returns d.
Proof.
  intros Hi. unfold differ_at.
  destruct (nth_error text i) eqn:Et.
  - destruct (nth_error censored i) eqn:Ec; [eexists; reflexivity|].
    apply nth_error_None in Ec. lia.
  - apply nth_error_None in Et. lia.
Qed.

Lemma run_end_shorter fuel : forall j,
  (j <= length censored)%nat -> (length text - j < fuel)%nat ->
  run_end text censored fuel j = Raises IndexError \/
  exists j', run_end text censored fuel j = Returns j' /\
             (j <= j' <= length censored)%nat.
Proof.
  induction fuel as [|fuel IH]; intros j Hj Hf; [lia|].
  rewrite run_end_S. destruct (Nat.ltb_spec j (length text)); [|lia].
  destruct (Nat.eq_dec j (length censored)) as [->|Hne].
  - left. rewrite differ_at_end. reflexivity.
  - destruct (differ_at_before j ltac:(lia)) as [d ->]. cbn [bind].
    destruct d.
    + destruct (IH (S j) ltac:(lia) ltac:(lia)) as [E|(j' & E & Hb)].
      * left. exact E.
      * right. exists j'. split; [exact E|lia].
    + right. exists j. split; [reflexivity|lia].
Qed.

Lemma scan_shorter fuel : forall i acc,
  (i <= length censored)%nat -> (length text - i < fuel)%nat ->
  scan text censored fuel i acc = Raises IndexError.
Proof.
  induction fuel as [|fuel IH]; intros i acc Hi Hf; [lia|].
  rewrite scan_S. destruct (Nat.ltb_spec i (length text)); [|lia].
  destruct (Nat.eq_dec i (length censored)) as [->|Hne].
  - rewrite differ_at_end. reflexivity.
  - destruct (differ_at_before i ltac:(lia)) as [d Ed]. rewrite Ed. cbn [bind].
    destruct d.
    + rewrite run_end_S. destruct (Nat.ltb_spec i (length text)); [|lia].
      rewrite Ed. cbn [bind].
      destruct (run_end_shorter (length text) (S i) ltac:(lia) ltac:(lia))
        as [E|(j & E & Hb)]; rewrite E; cbn [bind]; [reflexivity|].
      apply IH; lia.
    + apply IH; lia.
Qed.

Lemma diff_spans_shorter : diff_spans text censored = Raises IndexError.
Proof. apply scan_shorter; lia. Qed.
End ScanShorter.

Section ScanSameUpTo.
Variables text c1 c2 : str.
Hypothesis same_prefix :
  forall i, (i < length text)%nat -> nth_error c1 i = nth_error c2 i.

Lemma differ_at_same i :
  (i < length text)%nat -> differ_at text c1 i = differ_at text c2 i.
Proof. intros Hi. unfold differ_at. rewrite same_prefix by exact Hi. reflexivity. Qed.

Lemma run_end_same fuel : forall j,
  run_end text c1 fuel j = run_end text c2 fuel j.
Proof.
  induction fuel as [|fuel IH]; intros j; [reflexivity|].
  rewrite !run_end_S. destruct (Nat.ltb_spec j (length text)); [|reflexivity].
  rewrite differ_at_same by assumption.
  destruct (differ_at text c2 j) as [[|]| |]; cbn [bind]; auto.
Qed.

Lemma scan_same fuel : forall i acc,
  scan text c1 fuel i acc = scan text c2 fuel i acc.
Proof.
  induction fuel as [|fuel IH]; intros i acc; [reflexivity|].
  rewrite !scan_S. destruct (Nat.ltb_spec i (length text)); [|reflexivity].
  rewrite differ_at_same by assumption.
  destruct (differ_at text c2 i) as [[|]| |]; cbn [bind]; auto.
  rewrite run_end_same.
  destruct (run_end text c2 (S (length text)) i); cbn [bind]; auto.
Qed.
End ScanSameUpTo.

(** Characters of [censored] past the length of [text] are never read. *)
Lemma diff_spans_longer text censored :
  diff_spans text censored = diff_spans text (firstn (length text) censored).
Proof.
  unfold diff_spans. apply scan_same. intros i Hi.
  rewrite nth_error_firstn.
  destruct (Nat.ltb_spec i (length text)); [reflexivity|lia].
Qed.

(** * Claims about the diff span extractor *)

(** C6: for [text] and [censored] of equal length the scan returns, and
    what it returns is exactly the list of maximal contiguous index ranges
    on which the two strings differ, each once, in ascending order, each
    with [token = text[start:end]].  In particular, if the two strings
    differ only in that a non-empty substring [a] at some offset is
    replaced by a string [b] that differs from it at every position, the
    result is the single span of length [len(a)] at that offset. *)
Theorem diff_spans_maximal_runs (text censored : str) :
  length text = length censored ->
  (exists spans,
     diff_spans text censored = Returns spans /\ diff_runs text censored spans) /\
  (forall pre a b post,
     text = pre ++ a ++ post -> censored = pre ++ b ++ post ->
     a <> [] -> Forall2 (fun x y : ascii => x <> y) a b ->
     diff_spans text censored
     = Returns [mkTok a (length pre) (length pre + length a)]).
Proof.
  intros Hlen. split.
  - apply diff_spans_spec. exact Hlen.
  - intros pre a b post -> -> Ha Hab.
    apply diff_spans_one_replacement; assumption.
Qed.

Lemma diff_spans_maximal_runs_witness :
  let text := lit "you bad boy" in
  let censored := lit "you *** boy" in
  (exists spans,
     diff_spans text censored = Returns spans /\ diff_runs text censored spans) /\
  (forall pre a b post,
     text = pre ++ a ++ post -> censored = pre ++ b ++ post ->
     a <> [] -> Forall2 (fun x y : ascii => x <> y) a b ->
     diff_spans text censored
     = Returns [mkTok a (length pre) (length pre + length a)]).
Proof.
  intros text censored.
  exact (diff_spans_maximal_runs text censored eq_refl).
Defined.

(** C7, as stated, fails: nothing compares the two lengths.  With a
    censored string longer than the text the scan returns spans as if the
    excess were not there. *)
Lemma detect_and_apply_accepts_longer :
  detect_and_apply (fun _ => lit "a*c") (lit "ab") (lit "mask")
    = Returns (lit "a*c", [mkTok (lit "b") 1 2]) /\
  length (lit "ab") <> length (lit "a*c").
Proof. split; [reflexivity|discriminate]. Qed.

(** C7 (amended): when [censored] and [text] differ in length, either
    [censored] is the shorter one and [detect_and_apply] fails with the
    [IndexError] of the subscript [censored[i]], or it is the longer one
    and [detect_and_apply] returns, with the spans of comparing [text]
    with the first [len(text)] characters of [censored]. *)
Theorem detect_and_apply_length_mismatch (censor : str -> str) (text action : str) :
  length (censor text) <> length text ->
  ((length (censor text) < length text)%nat /\
   detect_and_apply censor text action = Raises IndexError) \/
  ((length text < length (censor text))%nat /\
   exists clean spans,
     detect_and_apply censor text action = Returns (clean, spans) /\
     diff_spans text (firstn (length text) (censor text)) = Returns spans /\
     diff_runs text (firstn (length text) (censor text)) spans).
Proof.
  intros Hne. unfold detect_and_apply.
  destruct (str_eq_dec (censor text) text) as [E|_]; [rewrite E in Hne; contradiction|].
  destruct (Nat.lt_trichotomy (length (censor text)) (length text)) as [H|[H|H]];
    [left|contradiction|right]; (split; [exact H|]).
  - rewrite diff_spans_shorter by exact H. reflexivity.
  - rewrite diff_spans_longer.
    destruct (diff_spans_spec text (firstn (length text) (censor text)))
      as (spans & E & Hruns).
    { rewrite length_firstn. lia. }
    rewrite E. cbn [bind].
    destruct (str_eq_dec action _); [eauto|].
    destruct (str_eq_dec action _); [|eauto].
    destruct (fold_left _ _ _). eauto.
Qed.

Lemma detect_and_apply_length_mismatch_witness :
  let censor := fun _ : str => lit "a*" in
  let text := lit "abc" in
  ((length (censor text) < length text)%nat /\
   detect_and_apply censor text (lit "mask") = Raises IndexError) \/
  ((length text < length (censor text))%nat /\
   exists clean spans,
     detect_and_apply censor text (lit "mask") = Returns (clean, spans) /\
     diff_spans text (firstn (length text) (censor text)) = Returns spans /\
     diff_runs text (firstn (length text) (censor text)) spans).
Proof.
  intros censor text.
  apply (detect_and_apply_length_mismatch censor text (lit "mask")).
  discriminate.
Defined.

(** * Further properties of the code *)

(** ** [join_preserving_spacing] *)

Lemma py_split_cons c s :
  py_split (c :: s)
  = if is_space c then py_split s
    else match s with
         | [] => [[c]]
         | d :: _ =>
             if is_space d then [c] :: py_split s
             else match py_split s with
                  | w :: ws => (c :: w) :: ws
                  | [] => [[c]]
                  end
         end.
Proof. reflexivity. Qed.

(** Every piece returned by [split] is a non-empty run of visible
    characters. *)
Lemma py_split_words s :
  Forall (fun w => w <> [] /\ forallb visible w = true) (py_split s).
Proof.
  induction s as [|c s IH]; [constructor|].
  rewrite py_split_cons. destruct (is_space c) eqn:Ec; [exact IH|].
  assert (Hc : visible c = true) by (unfold visible; rewrite Ec; reflexivity).
  destruct s as [|d s'].
  - repeat constructor; [discriminate|simpl; rewrite Hc; reflexivity].
  - destruct (is_space d).
    + constructor; [|exact IH]. split; [discriminate|simpl; rewrite Hc; reflexivity].
    + destruct (py_split (d :: s')) as [|w ws].
      * repeat constructor; [discriminate|simpl; rewrite Hc; reflexivity].
      * inversion IH as [|? ? [_ Hw] Hws]; subst.
        constructor; [|exact Hws]. split; [discriminate|].
        simpl. rewrite Hc, Hw. reflexivity.
Qed.

Lemma concat_py_split s : concat (py_split s) = filter visible s.
Proof.
  induction s as [|c s IH]; [reflexivity|].
  rewrite py_split_cons. cbn [filter]. unfold visible at 1.
  destruct (is_space c); cbn [negb]; [exact IH|].
  destruct s as [|d s']; [reflexivity|].
  destruct (is_space d).
  - cbn [concat app]. rewrite IH. reflexivity.
  - rewrite <- IH. destruct (py_split (d :: s')); reflexivity.
Qed.

Lemma filter_visible_word w :
  forallb visible w = true -> filter visible w = w.
Proof.
  induction w as [|c w IH]; simpl; [reflexivity|].
  intros H. apply andb_true_iff in H. destruct H as [Hc Hw].
  rewrite Hc, IH by exact Hw. reflexivity.
Qed.

Lemma filter_visible_join l :
  Forall (fun w => w <> [] /\ forallb visible w = true) l ->
  filter visible (py_join [" "%char] l) = concat l.
Proof.
  induction 1 as [|w l [_ Hw] Hl IH]; [reflexivity|].
  destruct l as [|w' l'].
  - simpl. rewrite app_nil_r. apply filter_visible_word. exact Hw.
  - change (py_join [" "%char] (w :: w' :: l'))
      with (w ++ [" "%char] ++ py_join [" "%char] (w' :: l')).
    rewrite !filter_app, IH, filter_visible_word by exact Hw. reflexivity.
Qed.

Lemma tidy_cons c s :
  tidy (c :: s)
  = visible c &&
    match s with
    | [] => true
    | d :: s'' =>
        if is_space d then
          Ascii.eqb d " "%char && match s'' with [] => false | _ => tidy s'' end
        else tidy s
    end.
Proof. destruct s; reflexivity. Qed.

Lemma tidy_word w : forallb visible w = true -> tidy w = true.
Proof.
  induction w as [|c w IH]; [reflexivity|].
  intros H. simpl in H. apply andb_true_iff in H. destruct H as [Hc Hw].
  rewrite tidy_cons, Hc. destruct w as [|d w']; [reflexivity|].
  simpl in Hw. apply andb_true_iff in Hw.
  destruct Hw as [Hd Hw']. unfold visible in Hd. apply negb_true_iff in Hd.
  rewrite Hd. apply IH. simpl. unfold visible at 1. rewrite Hd, Hw'. reflexivity.
Qed.

Lemma tidy_word_then w r :
  w <> [] -> forallb visible w = true -> r <> [] -> tidy r = true ->
  tidy (w ++ " "%char :: r) = true.
Proof.
  intros Hne Hw Hr Ht. induction w as [|c w IH]; [contradiction|].
  simpl in Hw. apply andb_true_iff in Hw. destruct Hw as [Hc Hw].
  cbn [app]. rewrite tidy_cons, Hc. destruct w as [|d w'].
  - cbn [app]. change (is_space " "%char) with true. cbn.
    destruct r; [contradiction|exact Ht].
  - cbn [app]. pose proof Hw as Hw0. simpl in Hw. apply andb_true_iff in Hw.
    destruct Hw as [Hd _]. unfold visible in Hd. apply negb_true_iff in Hd.
    rewrite Hd. apply IH; [discriminate|exact Hw0].
Qed.

Lemma tidy_join l :
  Forall (fun w => w <> [] /\ forallb visible w = true) l ->
  tidy (py_join [" "%char] l) = true.
Proof.
  induction 1 as [|w l [Hne Hw] Hl IH]; [reflexivity|].
  destruct l as [|w' l'].
  - apply tidy_word. exact Hw.
  - change (py_join [" "%char] (w :: w' :: l'))
      with (w ++ " "%char :: py_join [" "%char] (w' :: l')).
    apply tidy_word_then; try assumption.
    inversion Hl as [|? ? [Hne' _] _]; subst.
    destruct w'; [contradiction|]. destruct l'; discriminate.
Qed.

(** X1: [join_preserving_spacing] keeps exactly the visible characters of
    the kept slices, in their order. *)
Theorem join_preserving_spacing_visible text keep_ranges :
  exists out,
    join_preserving_spacing text keep_ranges = Returns out /\
    filter visible out
    = filter visible
        (concat (map (fun r => py_slice text (fst r) (snd r)) keep_ranges)).
Proof.
  eexists. split; [reflexivity|].
  rewrite filter_visible_join by apply py_split_words.
  apply concat_py_split.
Qed.

(** X2: in the text returned by [join_preserving_spacing] the only
    whitespace is single blanks, each between two visible characters: no
    leading or trailing whitespace, no doubled blank, no tab or newline. *)
Theorem join_preserving_spacing_tidy text keep_ranges :
  exists out,
    join_preserving_spacing text keep_ranges = Returns out /\ tidy out = true.
Proof.
  eexists. split; [reflexivity|].
  apply tidy_join, py_split_words.
Qed.

(** ** [sentences_with_offsets] under any tokenizer *)

Lemma lstrip_nil_iff s : lstrip s = [] <-> forallb is_space s = true.
Proof.
  induction s as [|c s IH]; simpl; [tauto|].
  destruct (is_space c); simpl; [exact IH|]. split; discriminate.
Qed.

Lemma lstrip_fixed s : lstrip (lstrip s) = lstrip s.
Proof.
  induction s as [|c s IH]; simpl; [reflexivity|].
  destruct (is_space c) eqn:E; [exact IH|]. simpl. rewrite E. reflexivity.
Qed.

Lemma forallb_space_rev s : forallb is_space (rev s) = forallb is_space s.
Proof.
  induction s as [|c s IH]; simpl; [reflexivity|].
  rewrite forallb_app, IH. simpl. rewrite andb_true_r. apply andb_comm.
Qed.

(** [text.strip()] is empty exactly for a text of whitespace only. *)
Lemma strip_nil_iff s : strip s = [] <-> forallb is_space s = true.
Proof.
  unfold strip. rewrite <- lstrip_nil_iff. split.
  - intros H. apply (f_equal (@rev ascii)) in H. rewrite rev_involutive in H.
    simpl in H. apply lstrip_nil_iff in H. rewrite forallb_space_rev in H.
    apply lstrip_nil_iff in H. rewrite lstrip_fixed in H. exact H.
  - intros ->. reflexivity.
Qed.

Lemma find_at_ge sub : forall rest i,
  find_at rest sub i = -1 \/ i <= find_at rest sub i.
Proof.
  induction rest as [|c rest IH]; intros i; simpl.
  - destruct (prefixb sub []); [right; lia|left; reflexivity].
  - destruct (prefixb sub (c :: rest)); [right; lia|].
    destruct (IH (i + 1)) as [H|H]; [left; exact H|right; lia].
Qed.

(** [find] answers [-1] or a position at or after the one it was asked to
    start from. *)
Lemma py_find_ge text sub c :
  0 <= c -> py_find text sub c = -1 \/ c <= py_find text sub c.
Proof.
  intros Hc. unfold py_find.
  destruct (Z.ltb_spec (Z.of_nat (length text)) c); [left; reflexivity|].
  rewrite slice_bound_in_range by lia.
  destruct (find_at_ge sub (skipn (Z.to_nat c) text) (Z.of_nat (Z.to_nat c)))
    as [Hf|Hf]; [left; exact Hf|right; lia].
Qed.

Section SentenceOrder.
Variable text : str.

Let ordered := StronglySorted (fun a b : SentenceSpan => sent_end a <= sent_start b).

Lemma sentence_fold_ordered sentences : forall out c,
  0 <= c -> ordered out -> Forall sized_span out ->
  Forall (fun sp => sent_end sp <= c) out ->
  let st := fold_left (sentence_step text) sentences (out, c) in
  ordered (fst st) /\ Forall sized_span (fst st) /\
  map sent_text (fst st) = map sent_text out ++ sentences.
Proof.
  induction sentences as [|s sentences IH]; intros out c Hc Ho Hs He.
  - simpl. rewrite app_nil_r. auto.
  - cbn [fold_left sentence_step].
    set (found := py_find text s c).
    set (start := if found =? -1 then c else found).
    assert (Hstart : c <= start).
    { unfold start. destruct (Z.eqb_spec found (-1)); [lia|].
      destruct (py_find_ge text s c Hc) as [H|H]; [contradiction|exact H]. }
    clearbody start. clear found.
    specialize (IH (out ++ [(start, start + Z.of_nat (length s), s)])
                   (start + Z.of_nat (length s))).
    cbv zeta in IH |- *.
    destruct IH as (H1 & H2 & H3).
    + lia.
    + apply StronglySorted_snoc; [exact Ho|].
      eapply Forall_impl; [|exact He]. intros sp Hsp. cbv beta in Hsp.
      unfold sent_start. simpl. lia.
    + apply Forall_app. split; [exact Hs|]. constructor; [|constructor].
      unfold sized_span, sent_start, sent_end, sent_text. simpl. lia.
    + apply Forall_app. split.
      * eapply Forall_impl; [|exact He]. intros sp Hsp. cbv beta in *. lia.
      * constructor; [|constructor]. unfold sent_end. simpl. lia.
    + split; [exact H1|]. split; [exact H2|].
      rewrite H3, map_app, <- app_assoc. reflexivity.
Qed.
End SentenceOrder.

Lemma sentences_with_offsets_shape (sent_tokenize : str -> list str) text :
  exists out,
    sentences_with_offsets sent_tokenize text = Returns out /\
    StronglySorted (fun a b => sent_end a <= sent_start b) out /\
    Forall sized_span out /\
    (strip text <> [] ->
     out <> [] /\
     (sent_tokenize text <> [] -> map sent_text out = sent_tokenize text)).
Proof.
  unfold sentences_with_offsets. destruct (strip text) eqn:Es.
  - exists []. repeat split; try constructor; contradiction.
  - destruct (sentence_fold_ordered text (sent_tokenize text) [] 0)
      as (H1 & H2 & H3); [lia|constructor|constructor|constructor|].
    destruct (fold_left _ _ _) as [out c]. simpl in H1, H2, H3.
    destruct out as [|sp out].
    + eexists. split; [reflexivity|]. split; [repeat constructor|].
      split.
      { constructor; [|constructor].
        unfold sized_span, sent_start, sent_end, sent_text. simpl. lia. }
      intros _. split; [discriminate|]. intros Hne.
      rewrite <- H3 in Hne. contradiction.
    + eexists. split; [reflexivity|]. split; [exact H1|]. split; [exact H2|].
      intros _. split; [discriminate|]. intros _. exact H3.
Qed.

(** X3: whatever the tokenizer returns, the triples of
    [sentences_with_offsets] have [start >= 0] and [end = start +
    len(sentence)], and they come in order without overlapping: each one
    ends no later than every later one starts.  For a text that is not
    blank the result is not empty, and its sentences are the tokenizer's,
    in order, when the tokenizer returned any. *)
Theorem sentences_with_offsets_ordered (sent_tokenize : str -> list str) text :
  exists out,
    sentences_with_offsets sent_tokenize text = Returns out /\
    StronglySorted (fun a b => sent_end a <= sent_start b) out /\
    Forall sized_span out /\
    (strip text <> [] ->
     out <> [] /\
     (sent_tokenize text <> [] -> map sent_text out = sent_tokenize text)).
Proof. apply sentences_with_offsets_shape. Qed.

(** X4: [sentences_with_offsets] returns the empty list exactly for a text
    made of whitespace only (the empty text included); the tokenizer is
    not consulted for it. *)
Theorem sentences_with_offsets_blank (sent_tokenize : str -> list str) text :
  sentences_with_offsets sent_tokenize text = Returns []
  <-> forallb is_space text = true.
Proof.
  rewrite <- strip_nil_iff. split.
  - intros H. destruct (strip text) eqn:Es; [reflexivity|].
    destruct (sentences_with_offsets_shape sent_tokenize text)
      as (out & E & _ & _ & Hne).
    rewrite E in H. injection H as ->. rewrite Es in Hne.
    destruct Hne as [Hne _]; [discriminate|contradiction].
  - intros H. unfold sentences_with_offsets. rewrite H. reflexivity.
Qed.

(** ** [redact_ranges] on ranges in order *)

Lemma clamp_slice_bound text x :
  0 <= x -> slice_bound (length text) (clamp text x) = slice_bound (length text) x.
Proof.
  intros Hx. unfold clamp, slice_bound.
  destruct (Z.ltb_spec (Z.max 0 (Z.min (Z.of_nat (length text)) x)) 0),
    (Z.ltb_spec x 0); lia.
Qed.

Lemma clamp_mono text a b : a <= b -> clamp text a <= clamp text b.
Proof. unfold clamp. lia. Qed.

Lemma clamp_0 text : clamp text 0 = 0.
Proof. unfold clamp. lia. Qed.

Lemma redact_fold text token ranges : forall out c,
  0 <= c -> laid_out c (map range_span ranges) ->
  let '(out', i') := fold_left (redact_step text token) ranges (out, clamp text c) in
  concat (out' ++ [py_slice_from text i'])
  = concat out ++ weave (fun _ => token) text c (map range_span ranges).
Proof.
  induction ranges as [|[s e] ranges IH]; intros out c Hc Hl.
  - simpl. rewrite concat_app. simpl. rewrite app_nil_r.
    unfold py_slice_from. rewrite clamp_slice_bound by exact Hc. reflexivity.
  - simpl in Hl. destruct Hl as (H1 & H2 & H3).
    cbn [fold_left redact_step fst snd map weave].
    destruct (Z.ltb_spec (clamp text s) (clamp text c)) as [Hlt|_].
    { pose proof (clamp_mono text c s H1). lia. }
    specialize (IH (out ++ [py_slice text (clamp text c) (clamp text s); token]) e
                   ltac:(lia) H3).
    destruct (fold_left _ _ _) as [out' i'].
    rewrite IH, concat_app. simpl. rewrite app_nil_r, <- !app_assoc.
    unfold py_slice. rewrite !clamp_slice_bound by lia. reflexivity.
Qed.

Lemma laid_out_ranges_sorted ranges : forall c,
  laid_out c (map range_span ranges) ->
  Sorted (fun a b : Z * Z => (fst a <=? fst b) = true) ranges.
Proof.
  induction ranges as [|r ranges IH]; intros c H; constructor.
  - destruct H as (_ & _ & H). eapply IH. exact H.
  - destruct H as (_ & H1 & H2). destruct ranges as [|r' ranges]; constructor.
    destruct H2 as (H2 & _). simpl in *. apply Z.leb_le. lia.
Qed.

(** X5: for ranges with [0 <= s <= e] given in order, each ending no later
    than the next one starts, [redact_ranges] skips none of them: it
    returns the text before each range followed by the token, then the
    tail, and putting the covered text back in place of each token gives
    the original text.  Offsets past the end of the text are allowed. *)
Theorem redact_ranges_weave text ranges token :
  laid_out 0 (map range_span ranges) ->
  redact_ranges text ranges token
    = Returns (weave (fun _ => token) text 0 (map range_span ranges)) /\
  weave (covered text) text 0 (map range_span ranges) = text.
Proof.
  intros H. split.
  - unfold redact_ranges. destruct ranges as [|r ranges].
    { simpl. rewrite py_slice_from_0. reflexivity. }
    rewrite (sorted_by_id fst Z.leb _ (laid_out_ranges_sorted _ _ H)).
    pose proof (redact_fold text token (r :: ranges) [] 0 ltac:(lia) H) as E.
    rewrite clamp_0 in E.
    destruct (fold_left _ _ _) as [out' i']. rewrite E. reflexivity.
  - rewrite weave_covered by (assumption || lia). apply py_slice_from_0.
Qed.

Lemma redact_ranges_weave_witness :
  let text := lit "Fine. Bad one. Good. Worse!" in
  let ranges := [(6, 14); (21, 99)] in
  redact_ranges text ranges (lit "[TOXIC]")
    = Returns (lit "Fine. [TOXIC] Good. [TOXIC]") /\
  weave (covered text) text 0 (map range_span ranges) = text.
Proof.
  intros text ranges.
  apply (redact_ranges_weave text ranges (lit "[TOXIC]")).
  simpl. lia.
Defined.

(** X6: a range that starts before the (clamped) end of the range applied
    before it is dropped whole, also where it reaches past that end: the
    result is the one for the first range alone. *)
Theorem redact_ranges_skips_overlap text token a b c d :
  a <= c -> clamp text c < clamp text b ->
  redact_ranges text [(a, b); (c, d)] token = redact_ranges text [(a, b)] token.
Proof.
  intros Hac Hcb. unfold redact_ranges.
  cbn [sorted_by insert_by fst].
  destruct (Z.leb_spec a c) as [_|Hn]; [|lia].
  cbn [fold_left redact_step fst snd].
  pose proof (clamp_range text a) as Ha.
  destruct (Z.ltb_spec (clamp text a) 0) as [Hlt|_]; [lia|].
  cbn [redact_step fst snd].
  destruct (Z.ltb_spec (clamp text c) (clamp text b)) as [_|Hge]; [|lia].
  reflexivity.
Qed.

Lemma redact_ranges_skips_overlap_witness :
  redact_ranges (lit "0123456789") [(0, 5); (3, 9)] (lit "#")
  = redact_ranges (lit "0123456789") [(0, 5)] (lit "#").
Proof.
  apply redact_ranges_skips_overlap; [lia|vm_compute; reflexivity].
Defined.

(** ** More about [merge_spans] *)

Lemma Qgtb_true a b : (b < a)%Q -> Qgtb a b = true.
Proof.
  intros H. unfold Qgtb. apply negb_true_iff.
  destruct (Qle_bool a b) eqn:E; [|reflexivity].
  apply Qle_bool_iff in E. exfalso. exact (Qlt_not_le _ _ H E).
Qed.

Lemma Qgtb_false a b : (a <= b)%Q -> Qgtb a b = false.
Proof.
  intros H. unfold Qgtb. apply negb_false_iff. apply Qle_bool_iff. exact H.
Qed.

Lemma same_source_no_precedence who :
  is_presidio who && is_gliner who = false /\
  is_gliner who && is_presidio who = false.
Proof. destruct who; split; reflexivity. Qed.

(** The winner replaces an accepted loser of its own source. *)
Lemma sweep_step_winner_replaces who a b :
  overlap a b = true -> outranks a b ->
  sweep_step [tag who b] (tag who a) = [tag who a].
Proof.
  intros Ho Hr. unfold sweep_step. cbn [last_opt span src].
  rewrite Ho. cbn [negb].
  destruct (same_source_no_precedence who) as [-> ->].
  destruct Hr as [Hlen|[Hlen Hsc]].
  - replace (sp_end a - sp_start a >? sp_end b - sp_start b) with true
      by (symmetry; rewrite Z.gtb_ltb; apply Z.ltb_lt; exact Hlen).
    reflexivity.
  - rewrite Hlen, Z.eqb_refl, (Qgtb_true _ _ Hsc), orb_true_r. reflexivity.
Qed.

(** An accepted winner is not replaced by a loser of its own source. *)
Lemma sweep_step_winner_stays who a b :
  overlap a b = true -> outranks a b ->
  sweep_step [tag who a] (tag who b) = [tag who a].
Proof.
  intros Ho Hr. unfold sweep_step. cbn [last_opt span src].
  rewrite overlap_sym, Ho. cbn [negb].
  destruct (same_source_no_precedence who) as [-> ->].
  replace (sp_end b - sp_start b >? sp_end a - sp_start a) with false.
  2:{ symmetry. rewrite Z.gtb_ltb. apply Z.ltb_ge. destruct Hr as [H|[H _]]; lia. }
  destruct Hr as [Hlen|[Hlen Hsc]].
  - replace (sp_end b - sp_start b =? sp_end a - sp_start a) with false
      by (symmetry; apply Z.eqb_neq; lia).
    reflexivity.
  - rewrite (Qgtb_false (get_score b) (get_score a)) by (apply Qlt_le_weak; exact Hsc).
    rewrite andb_false_r. reflexivity.
Qed.

Lemma sweep_pair_outranks who a b :
  overlap a b = true -> outranks a b ->
  map span (sweep (sorted_by merge_key pair_leb [tag who a; tag who b])) = [a] /\
  map span (sweep (sorted_by merge_key pair_leb [tag who b; tag who a])) = [a].
Proof.
  intros Ho Hr. cbn [sorted_by insert_by]. unfold sweep.
  split.
  - destruct (pair_leb (merge_key (tag who a)) (merge_key (tag who b)));
      cbn [fold_left].
    + change (sweep_step [] (tag who a)) with [tag who a].
      rewrite sweep_step_winner_stays by assumption. reflexivity.
    + change (sweep_step [] (tag who b)) with [tag who b].
      rewrite sweep_step_winner_replaces by assumption. reflexivity.
  - destruct (pair_leb (merge_key (tag who b)) (merge_key (tag who a)));
      cbn [fold_left].
    + change (sweep_step [] (tag who b)) with [tag who b].
      rewrite sweep_step_winner_replaces by assumption. reflexivity.
    + change (sweep_step [] (tag who a)) with [tag who a].
      rewrite sweep_step_winner_stays by assumption. reflexivity.
Qed.

(** X7: of two overlapping spans of the same source the longer one is
    kept, and of two equally long ones the one with the higher score,
    whichever way round they are given and whether the source is presidio
    or gliner. *)
Theorem merge_spans_same_source_winner text a b :
  overlap a b = true -> outranks a b ->
  merge_spans text [a; b] [] = Returns [a] /\
  merge_spans text [b; a] [] = Returns [a] /\
  merge_spans text [] [a; b] = Returns [a] /\
  merge_spans text [] [b; a] = Returns [a].
Proof.
  intros Ho Hr. unfold merge_spans. cbn [map app].
  destruct (sweep_pair_outranks presidio a b Ho Hr) as [-> ->].
  destruct (sweep_pair_outranks gliner a b Ho Hr) as [-> ->].
  repeat split.
Qed.

Lemma merge_spans_same_source_winner_witness :
  let a := span_at 0 10 in
  let b := mkSpan [] [] 0 5 (Some (99 # 100)%Q) None in
  merge_spans (lit "0123456789") [a; b] [] = Returns [a] /\
  merge_spans (lit "0123456789") [b; a] [] = Returns [a] /\
  merge_spans (lit "0123456789") [] [a; b] = Returns [a] /\
  merge_spans (lit "0123456789") [] [b; a] = Returns [a].
Proof.
  intros a b.
  apply (merge_spans_same_source_winner (lit "0123456789") a b).
  - reflexivity.
  - left. simpl. lia.
Defined.

Lemma sweep_step_not_nil merged s : sweep_step merged s <> [].
Proof.
  destruct (sweep_step_cases merged s) as [[-> _]|(m & l & -> & _ & [->| ->])];
    intros H; apply app_eq_nil in H; destruct H; discriminate.
Qed.

Lemma sweep_fold_not_nil spans : forall merged,
  merged <> [] -> fold_left sweep_step spans merged <> [].
Proof.
  induction spans as [|s spans IH]; intros merged H; simpl; [exact H|].
  apply IH, sweep_step_not_nil.
Qed.

(** X8: [merge_spans] returns the empty list only when both input lists
    are empty: as soon as a detector reports a span, some span comes out. *)
Theorem merge_spans_empty_iff text presidio_spans gliner_spans :
  merge_spans text presidio_spans gliner_spans = Returns []
  <-> presidio_spans = [] /\ gliner_spans = [].
Proof.
  split.
  - unfold merge_spans. intros H. injection H as H.
    apply map_eq_nil in H.
    set (tagged := map (tag presidio) presidio_spans
                   ++ map (tag gliner) gliner_spans) in *.
    destruct (sorted_by merge_key pair_leb tagged) as [|t ts] eqn:E.
    + pose proof (sorted_by_perm merge_key pair_leb tagged) as Hp.
      rewrite E in Hp. apply Permutation_sym, Permutation_nil in Hp.
      unfold tagged in Hp. apply app_eq_nil in Hp. destruct Hp as [H1 H2].
      apply map_eq_nil in H1, H2. auto.
    + exfalso. unfold sweep in H. cbn [fold_left] in H.
      revert H. apply sweep_fold_not_nil, sweep_step_not_nil.
  - intros [-> ->]. reflexivity.
Qed.

Lemma StronglySorted_map {A B : Type} (f : A -> B) (R : B -> B -> Prop) l :
  StronglySorted (fun a b => R (f a) (f b)) l -> StronglySorted R (map f l).
Proof.
  induction 1 as [|a l Hl IH Ha]; simpl; constructor; [exact IH|].
  apply Forall_map. exact Ha.
Qed.

(** The sweep over spans with [start < end]: what comes out is in order
    and disjoint. *)
Lemma merge_spans_disjoint_core presidio_spans gliner_spans :
  Forall nonempty presidio_spans -> Forall nonempty gliner_spans ->
  let out := map span (sweep (sorted_by merge_key pair_leb
               (map (tag presidio) presidio_spans
                ++ map (tag gliner) gliner_spans))) in
  StronglySorted before out /\ Forall nonempty out.
Proof.
  intros Hp Hg.
  set (tagged := map (tag presidio) presidio_spans ++ map (tag gliner) gliner_spans).
  set (spans := sorted_by merge_key pair_leb tagged).
  assert (Hne : Forall (fun t => nonempty (span t)) spans).
  { rewrite Forall_forall. intros t Ht. apply sorted_by_In in Ht.
    unfold tagged in Ht. rewrite in_app_iff, !in_map_iff in Ht.
    rewrite Forall_forall in Hp, Hg.
    destruct Ht as [(s & <- & Hs)|(s & <- & Hs)]; simpl; auto. }
  assert (Hso : StronglySorted (fun a b => start_le (span a) (span b)) spans).
  { eapply StronglySorted_weaken; [|apply sorted_by_sorted].
    - intros a b. apply pair_leb_start.
    - apply pair_leb_total.
    - apply pair_leb_trans. }
  destruct (sweep_fold_sorted spans [] Hso Hne) as [Hs Hn];
    [constructor|constructor|discriminate|].
  cbv zeta. fold (sweep spans) in Hs, Hn. split.
  - apply StronglySorted_map. exact Hs.
  - apply Forall_map. exact Hn.
Qed.

(** X9: merging is idempotent on spans with [start < end]: the list
    [merge_spans] returns, given again as the only source (presidio or
    gliner), comes back unchanged. *)
Theorem merge_spans_idempotent text presidio_spans gliner_spans :
  Forall nonempty presidio_spans -> Forall nonempty gliner_spans ->
  exists out,
    merge_spans text presidio_spans gliner_spans = Returns out /\
    merge_spans text out [] = Returns out /\
    merge_spans text [] out = Returns out.
Proof.
  intros Hp Hg.
  destruct (merge_spans_disjoint_core _ _ Hp Hg) as [Hs Hn].
  eexists. split; [reflexivity|].
  assert (Hf : Sorted follows
                 (map span (sweep (sorted_by merge_key pair_leb
                    (map (tag presidio) presidio_spans
                     ++ map (tag gliner) gliner_spans))))).
  { apply disjoint_ascending_follows; [exact Hn|].
    apply StronglySorted_Sorted. exact Hs. }
  unfold merge_spans. cbn [map app]. rewrite app_nil_r.
  rewrite !merge_one_list_unchanged by exact Hf. split; reflexivity.
Qed.

Lemma merge_spans_idempotent_witness :
  exists out,
    merge_spans (lit "0123456789") [span_at 0 4; span_at 6 9] [span_at 3 7]
      = Returns out /\
    merge_spans (lit "0123456789") out [] = Returns out /\
    merge_spans (lit "0123456789") [] out = Returns out.
Proof.
  apply merge_spans_idempotent;
    repeat constructor; unfold nonempty; simpl; lia.
Defined.

Lemma disjoint_laid_out l : forall i,
  StronglySorted before l -> Forall nonempty l ->
  Forall (fun s => i <= sp_start s) l -> laid_out i l.
Proof.
  induction l as [|s l IH]; intros i Hs Hn Hi; simpl; [exact I|].
  inversion Hs as [|? ? Hs' Hb]; subst. inversion Hn as [|? ? Hns Hn']; subst.
  inversion Hi as [|? ? His _]; subst.
  split; [exact His|]. split; [unfold nonempty in Hns; lia|].
  apply IH; assumption.
Qed.

Lemma apply_redactions_laid_out text spans :
  laid_out 0 spans ->
  apply_redactions text spans = Returns (weave get_replacement text 0 spans).
Proof.
  intros H. unfold apply_redactions. destruct spans as [|s spans].
  { simpl. rewrite py_slice_from_0. reflexivity. }
  rewrite (sorted_by_start_id _ (laid_out_sorted _ _ H)).
  pose proof (redaction_fold text (s :: spans) [] 0) as E.
  destruct (fold_left _ _ _) as [out' i']. rewrite E. reflexivity.
Qed.

(** X10: the merge-then-redact pipeline of the PII service.  When every
    detected span has [0 <= start < end], the merged list can be redacted
    without loss: [apply_redactions] on it returns the text between the
    merged spans with one replacement per merged span, and putting the
    covered text back gives the original text. *)
Theorem merge_then_redact text presidio_spans gliner_spans :
  Forall (fun s => 0 <= sp_start s < sp_end s) presidio_spans ->
  Forall (fun s => 0 <= sp_start s < sp_end s) gliner_spans ->
  exists merged,
    merge_spans text presidio_spans gliner_spans = Returns merged /\
    apply_redactions text merged
      = Returns (weave get_replacement text 0 merged) /\
    weave (covered text) text 0 merged = text.
Proof.
  intros Hp Hg.
  assert (Hp' : Forall nonempty presidio_spans)
    by (eapply Forall_impl; [|exact Hp]; unfold nonempty; intros; lia).
  assert (Hg' : Forall nonempty gliner_spans)
    by (eapply Forall_impl; [|exact Hg]; unfold nonempty; intros; lia).
  destruct (merge_spans_disjoint_core _ _ Hp' Hg') as [Hs Hn].
  destruct (merge_spans_subseq text presidio_spans gliner_spans)
    as (out & pool & E & Hperm & Hsub).
  exists out. split; [exact E|].
  unfold merge_spans in E. injection E as E. rewrite E in Hs, Hn.
  assert (Hl : laid_out 0 out).
  { apply disjoint_laid_out; try assumption.
    rewrite Forall_forall. intros s Hin.
    assert (Hin' : In s (presidio_spans ++ gliner_spans)).
    { eapply Permutation_in; [exact Hperm|]. eapply subseq_In; eassumption. }
    rewrite Forall_forall in Hp, Hg.
    apply in_app_iff in Hin'. destruct Hin' as [H|H]; [apply Hp in H|apply Hg in H]; lia. }
  split; [apply apply_redactions_laid_out; exact Hl|].
  rewrite weave_covered by (assumption || lia). apply py_slice_from_0.
Qed.

Lemma merge_then_redact_witness :
  exists merged,
    merge_spans (lit "Mail bob@x.io or Bob") [span_at 5 13] [span_at 5 8; span_at 17 20]
      = Returns merged /\
    apply_redactions (lit "Mail bob@x.io or Bob") merged
      = Returns (weave get_replacement (lit "Mail bob@x.io or Bob") 0 merged) /\
    weave (covered (lit "Mail bob@x.io or Bob")) (lit "Mail bob@x.io or Bob") 0 merged
      = lit "Mail bob@x.io or Bob".
Proof.
  apply merge_then_redact; repeat constructor; simpl; lia.
Defined.

(** ** [is_generic_preface_span] *)

Lemma lstrip_app_space p s :
  forallb is_space p = true -> lstrip (p ++ s) = lstrip s.
Proof.
  induction p as [|c p IH]; simpl; [reflexivity|].
  intros H. apply andb_true_iff in H. destruct H as [Hc Hp].
  rewrite Hc. apply IH. exact Hp.
Qed.

Lemma lstrip_app_visible s p :
  forallb is_space s = false -> lstrip (s ++ p) = lstrip s ++ p.
Proof.
  induction s as [|c s IH]; simpl; [discriminate|].
  destruct (is_space c); simpl; [exact IH|reflexivity].
Qed.

(** Whitespace around a text does not change what [strip] returns. *)
Lemma strip_pad p1 s p2 :
  forallb is_space p1 = true -> forallb is_space p2 = true ->
  strip (p1 ++ s ++ p2) = strip s.
Proof.
  intros H1 H2. unfold strip. rewrite lstrip_app_space by exact H1.
  f_equal. destruct (forallb is_space s) eqn:Es.
  - assert (E : lstrip (s ++ p2) = []).
    { apply lstrip_nil_iff. rewrite forallb_app, Es, H2. reflexivity. }
    rewrite E. apply lstrip_nil_iff in Es. rewrite Es. reflexivity.
  - rewrite lstrip_app_visible by exact Es.
    rewrite rev_app_distr. apply lstrip_app_space.
    rewrite forallb_space_rev. exact H2.
Qed.

Lemma is_space_lower c : is_space (lower_char c) = is_space c.
Proof. destruct c as [[] [] [] [] [] [] [] []]; reflexivity. Qed.

Lemma lstrip_lower s : lstrip (py_lower s) = py_lower (lstrip s).
Proof.
  induction s as [|c s IH]; simpl; [reflexivity|].
  rewrite is_space_lower. destruct (is_space c); [exact IH|reflexivity].
Qed.

Lemma strip_lower s : strip (py_lower s) = py_lower (strip s).
Proof.
  unfold strip. rewrite lstrip_lower. unfold py_lower at 1.
  rewrite <- map_rev. fold (py_lower (rev (lstrip s))).
  rewrite lstrip_lower. unfold py_lower. rewrite map_rev. reflexivity.
Qed.

(** X11: [is_generic_preface_span] looks neither at whitespace around the
    text nor at the case of its letters: two texts that are equal after
    lower-casing, one of them padded with whitespace on either side, get
    the same answer. *)
Theorem is_generic_preface_span_insensitive p1 p2 s s' :
  forallb is_space p1 = true -> forallb is_space p2 = true ->
  py_lower s = py_lower s' ->
  is_generic_preface_span (Some (p1 ++ s ++ p2)) = is_generic_preface_span (Some s').
Proof.
  intros H1 H2 Hs. unfold is_generic_preface_span.
  rewrite strip_pad by assumption.
  rewrite <- !strip_lower, Hs. reflexivity.
Qed.

Lemma is_generic_preface_span_insensitive_witness :
  is_generic_preface_span (Some (lit "  " ++ lit "E-Mail" ++ lit " "))
  = is_generic_preface_span (Some (lit "e-mail")).
Proof.
  apply is_generic_preface_span_insensitive; reflexivity.
Defined.

(** ** [detect_and_apply]: what is removed and what is reported *)

Lemma skipn_nth_error {A : Type} (l : list A) : forall i a,
  nth_error l i = Some a -> skipn i l = a :: skipn (S i) l.
Proof.
  induction l as [|x l IH]; intros i a H; destruct i; simpl in *; try discriminate.
  - injection H as ->. reflexivity.
  - apply IH. exact H.
Qed.

Lemma keep_same_refl text : keep_same text text = text.
Proof.
  induction text as [|a text IH]; simpl; [reflexivity|].
  rewrite Ascii.eqb_refl, IH. reflexivity.
Qed.

Lemma neq_at_refl text j : neq_at text text j = false.
Proof.
  unfold neq_at. destruct (nth_error text j); [|reflexivity].
  rewrite Ascii.eqb_refl. reflexivity.
Qed.

Lemma remove_fold text spans : forall out k,
  let '(out', k') := fold_left (remove_step text) spans (out, k) in
  concat (out' ++ [skipn k' text]) = concat out ++ gaps_from text k spans.
Proof.
  induction spans as [|sp spans IH]; intros out k; simpl.
  - rewrite concat_app. simpl. rewrite app_nil_r. reflexivity.
  - specialize (IH (out ++ [substr text k (tok_start sp)]) (tok_end sp)).
    destruct (fold_left _ _ _) as [out' k'].
    rewrite IH, concat_app. simpl. rewrite app_nil_r, <- app_assoc. reflexivity.
Qed.

Section ScanCover.
Variables text censored : str.
Hypothesis same_length : length text = length censored.

Let n := length text.
Let D := neq_at text censored.
Let K (i : nat) := keep_same (skipn i text) (skipn i censored).

Lemma keep_same_step i :
  (i < n)%nat ->
  exists a, nth_error text i = Some a /\
            K i = if D i then K (S i) else a :: K (S i).
Proof.
  intros Hi. unfold n in Hi.
  destruct (nth_error text i) as [a|] eqn:Ea;
    [|apply nth_error_None in Ea; lia].
  destruct (nth_error censored i) as [b|] eqn:Eb;
    [|apply nth_error_None in Eb; lia].
  exists a. split; [reflexivity|].
  unfold K, D, neq_at. rewrite Ea, Eb.
  rewrite (skipn_nth_error _ _ _ Ea), (skipn_nth_error _ _ _ Eb). simpl.
  destruct (Ascii.eqb a b); reflexivity.
Qed.

Lemma keep_same_skip_run j : forall i,
  (i <= j <= n)%nat -> (forall k, (i <= k < j)%nat -> D k = true) -> K i = K j.
Proof.
  induction j as [|j IH]; intros i Hij Hrun.
  - replace i with 0%nat by lia. reflexivity.
  - destruct (Nat.eq_dec i (S j)) as [->|Hne]; [reflexivity|].
    rewrite (IH i) by (try lia; intros k Hk; apply Hrun; lia).
    destruct (keep_same_step j ltac:(lia)) as (a & _ & E).
    rewrite E, Hrun by lia. reflexivity.
Qed.

Lemma gaps_from_step i a l :
  nth_error text i = Some a ->
  Forall (fun sp => (S i <= tok_start sp)%nat) l ->
  gaps_from text i l = a :: gaps_from text (S i) l.
Proof.
  intros Ea Hl. destruct l as [|sp l]; simpl.
  - apply skipn_nth_error. exact Ea.
  - inversion Hl as [|? ? Hsp _]; subst. unfold substr.
    rewrite (skipn_nth_error _ _ _ Ea).
    replace (tok_start sp - i)%nat with (S (tok_start sp - S i)) by lia.
    reflexivity.
Qed.

Lemma scan_cover fuel : forall i acc,
  (i <= n)%nat -> (n - i < fuel)%nat ->
  exists l,
    scan text censored fuel i acc = Returns (acc ++ l) /\
    Forall (fun sp => (i <= tok_start sp)%nat) l /\
    gaps_from text i l = K i /\
    (forall j, (i <= j)%nat -> D j = true <-> covered_by l j).
Proof.
  induction fuel as [|fuel IH]; intros i acc Hi Hf; [lia|].
  rewrite scan_S. destruct (Nat.ltb_spec i (length text)) as [Hlt|Hge].
  - rewrite (differ_at_neq text censored same_length) by exact Hlt. cbn [bind].
    fold D. destruct (D i) eqn:Ed.
    + destruct (run_end_spec text censored same_length (S n) i)
        as (j0 & E & Hb & Hall & Hend); [lia|lia|].
      fold D in Hall, Hend. fold n in Hb.
      unfold n in E at 1. rewrite E. cbn [bind].
      assert (Hij : (i < j0)%nat).
      { destruct (Nat.eq_dec i j0) as [->|]; [congruence|lia]. }
      destruct (IH j0 (acc ++ [mkTok (substr text i j0) i j0]))
        as (l & El & Hl & Hg & Hc); [lia|lia|].
      exists (mkTok (substr text i j0) i j0 :: l).
      split; [rewrite El, <- app_assoc; reflexivity|].
      split.
      { constructor; [simpl; lia|].
        eapply Forall_impl; [|exact Hl]. intros sp Hsp. simpl in Hsp. lia. }
      split.
      { cbn [gaps_from tok_start tok_end]. unfold substr at 1.
        rewrite Nat.sub_diag. cbn [firstn app]. rewrite Hg.
        symmetry. apply keep_same_skip_run; [lia|exact Hall]. }
      intros j Hj. destruct (Nat.lt_ge_cases j j0) as [Hin|Hout].
      * split; [|intros _; apply Hall; lia].
        intros _. eexists. split; [left; reflexivity|simpl; lia].
      * rewrite (Hc j Hout). split.
        -- intros (sp & Hsp & Hr). exists sp. split; [right; exact Hsp|exact Hr].
        -- intros (sp & [<-|Hsp] & Hr); [simpl in Hr; lia|].
           exists sp. split; assumption.
    + destruct (IH (S i) acc) as (l & El & Hl & Hg & Hc); [lia|lia|].
      exists l. split; [exact El|].
      split.
      { eapply Forall_impl; [|exact Hl]. intros sp Hsp. simpl in Hsp. lia. }
      destruct (keep_same_step i Hlt) as (a & Ea & EK).
      split.
      { rewrite (gaps_from_step i a l Ea Hl), Hg, EK, Ed. reflexivity. }
      intros j Hj. destruct (Nat.eq_dec j i) as [->|Hne].
      * rewrite Ed. split; [discriminate|].
        intros (sp & Hsp & Hr). rewrite Forall_forall in Hl.
        apply Hl in Hsp. lia.
      * apply Hc. lia.
  - exists []. split; [rewrite app_nil_r; reflexivity|].
    split; [constructor|]. split.
    + simpl. unfold K. rewrite !skipn_all2 by lia. reflexivity.
    + intros j Hj. split.
      * intros Hd. unfold D in Hd.
        rewrite (neq_at_past text censored same_length j) in Hd by lia.
        discriminate.
      * intros (sp & [] & _).
Qed.

Lemma diff_spans_cover :
  exists spans,
    diff_spans text censored = Returns spans /\
    gaps_from text 0 spans = keep_same text censored /\
    (forall j, neq_at text censored j = true <-> covered_by spans j).
Proof.
  destruct (scan_cover (S n) 0 []) as (l & E & _ & Hg & Hc); [lia|lia|].
  exists l. split; [exact E|]. split; [exact Hg|].
  intros j. apply Hc. lia.
Qed.
End ScanCover.

(** X12: with a censor that keeps the length, the ["remove"] action
    returns the text without the characters the censor changed: exactly
    the characters at the positions where text and censored text agree, in
    order. *)
Theorem detect_and_apply_remove (censor : str -> str) (text : str) :
  length (censor text) = length text ->
  exists spans,
    detect_and_apply censor text (lit "remove")
    = Returns (keep_same text (censor text), spans).
Proof.
  intros Hlen. unfold detect_and_apply.
  destruct (str_eq_dec (censor text) text) as [E|_].
  - exists []. rewrite E, keep_same_refl. reflexivity.
  - destruct (diff_spans_cover text (censor text) (eq_sym Hlen))
      as (spans & E & Hg & _).
    rewrite E. cbn [bind].
    destruct (str_eq_dec (lit "remove") (lit "mask")) as [H|_]; [discriminate|].
    destruct (str_eq_dec (lit "remove") (lit "remove")) as [_|H];
      [|contradiction].
    pose proof (remove_fold text spans [] 0%nat) as F.
    destruct (fold_left _ _ _) as [out k]. exists spans.
    rewrite F, <- Hg. reflexivity.
Qed.

Lemma detect_and_apply_remove_witness :
  exists spans,
    detect_and_apply (fun _ => lit "you *** boy") (lit "you bad boy") (lit "remove")
    = Returns (keep_same (lit "you bad boy") (lit "you *** boy"), spans).
Proof.
  apply (detect_and_apply_remove (fun _ => lit "you *** boy") (lit "you bad boy")).
  reflexivity.
Defined.

(** X13: with a censor that keeps the length, and for every action,
    [detect_and_apply] returns, and the spans it reports cover exactly the
    positions at which the censor changed a character; unless the action
    is ["remove"], the text it returns is the censored text. *)
Theorem detect_and_apply_reports_changes (censor : str -> str) (text action : str) :
  length (censor text) = length text ->
  exists clean spans,
    detect_and_apply censor text action = Returns (clean, spans) /\
    (forall j, neq_at text (censor text) j = true <-> covered_by spans j) /\
    (action <> lit "remove" -> clean = censor text).
Proof.
  intros Hlen. unfold detect_and_apply.
  destruct (str_eq_dec (censor text) text) as [E|_].
  - exists text, []. split; [reflexivity|]. split; [|intros _; symmetry; exact E].
    intros j. rewrite E, neq_at_refl. split; [discriminate|].
    intros (sp & [] & _).
  - destruct (diff_spans_cover text (censor text) (eq_sym Hlen))
      as (spans & E & _ & Hc).
    rewrite E. cbn [bind].
    destruct (str_eq_dec action (list_ascii_of_string "mask")).
    { exists (censor text), spans. auto. }
    destruct (str_eq_dec action (list_ascii_of_string "remove")) as [Hr|Hr].
    + destruct (fold_left _ _ _) as [out k]. eexists _, spans.
      split; [reflexivity|]. split; [exact Hc|]. intros H. contradiction.
    + exists (censor text), spans. auto.
Qed.

Lemma detect_and_apply_reports_changes_witness :
  let censor := fun _ : str => lit "you *** boy" in
  let text := lit "you bad boy" in
  exists clean spans,
    detect_and_apply censor text (lit "mask") = Returns (clean, spans) /\
    (forall j, neq_at text (censor text) j = true <-> covered_by spans j) /\
    (lit "mask" <> lit "remove" -> clean = censor text).
Proof.
  intros censor text.
  apply (detect_and_apply_reports_changes censor text (lit "mask")).
  reflexivity.
Defined.

(** ** The order of the input does not matter *)

Section SortUnique.
Context {A K : Type} (key : A -> K) (leb : K -> K -> bool).
Hypothesis leb_total : forall a b, leb a b = true \/ leb b a = true.
Hypothesis leb_trans : forall a b c, leb a b = true -> leb b c = true -> leb a c = true.
Hypothesis leb_antisym : forall a b, leb a b = true -> leb b a = true -> a = b.

Let le (a b : A) : Prop := leb (key a) (key b) = true.

(** Two key-sorted arrangements of the same elements are the same list
    when no two elements share a key. *)
Lemma sorted_perm_unique l : forall m,
  NoDup (map key l) -> StronglySorted le l -> StronglySorted le m ->
  Permutation m l -> m = l.
Proof.
  induction l as [|x l IH]; intros m Hnd Hl Hm Hp.
  - apply Permutation_sym, Permutation_nil in Hp. exact Hp.
  - destruct m as [|y m]; [apply Permutation_nil in Hp; discriminate|].
    inversion Hl as [|? ? Hl' Hx]; subst. inversion Hm as [|? ? Hm' Hy]; subst.
    inversion Hnd as [|? ? Hnx Hnd']; subst.
    rewrite Forall_forall in Hx, Hy.
    assert (Hyx : y = x).
    { assert (Hy_in : In y (x :: l))
        by (eapply Permutation_in; [exact Hp|left; reflexivity]).
      assert (Hx_in : In x (y :: m))
        by (eapply Permutation_in; [symmetry; exact Hp|left; reflexivity]).
      destruct Hy_in as [->|Hy_in]; [reflexivity|].
      destruct Hx_in as [->|Hx_in]; [reflexivity|].
      exfalso. apply Hnx.
      rewrite (leb_antisym (key x) (key y) (Hx y Hy_in) (Hy x Hx_in)).
      apply in_map. exact Hy_in. }
    subst y. f_equal. apply IH; try assumption.
    eapply Permutation_cons_inv. exact Hp.
Qed.

Lemma sorted_by_perm_eq l l' :
  NoDup (map key l) -> Permutation l l' ->
  sorted_by key leb l = sorted_by key leb l'.
Proof.
  intros Hnd Hp. symmetry. apply sorted_perm_unique.
  - eapply Permutation_NoDup; [|exact Hnd].
    apply Permutation_map, sorted_by_perm.
  - apply sorted_by_sorted; assumption.
  - apply sorted_by_sorted; assumption.
  - rewrite <- (sorted_by_perm key leb l), <- (sorted_by_perm key leb l').
    symmetry. exact Hp.
Qed.
End SortUnique.

Lemma Z_leb_total a b : (a <=? b) = true \/ (b <=? a) = true.
Proof. destruct (Z.leb_spec a b), (Z.leb_spec b a); auto; lia. Qed.

Lemma Z_leb_trans a b c : (a <=? b) = true -> (b <=? c) = true -> (a <=? c) = true.
Proof. rewrite !Z.leb_le. lia. Qed.

Lemma Z_leb_antisym a b : (a <=? b) = true -> (b <=? a) = true -> a = b.
Proof. rewrite !Z.leb_le. lia. Qed.

Lemma pair_leb_antisym a b :
  pair_leb a b = true -> pair_leb b a = true -> a = b.
Proof.
  destruct a as [a1 a2], b as [b1 b2]. unfold pair_leb. simpl.
  destruct (Z.ltb_spec a1 b1), (Z.ltb_spec b1 a1),
    (Z.eqb_spec a1 b1), (Z.eqb_spec b1 a1),
    (Z.leb_spec a2 b2), (Z.leb_spec b2 a2);
    simpl; try discriminate; intros _ _; try lia; f_equal; lia.
Qed.

Lemma NoDup_map_finer {A B C : Type} (f : A -> B) (g : A -> C) l :
  (forall a b, g a = g b -> f a = f b) -> NoDup (map f l) -> NoDup (map g l).
Proof.
  intros Hfg. induction l as [|x l IH]; simpl; intros H; [constructor|].
  inversion H as [|? ? Hx Hl]; subst. constructor; [|apply IH; exact Hl].
  intros Hin. apply Hx. apply in_map_iff in Hin.
  destruct Hin as (y & Hy & Hin). apply in_map_iff. exists y.
  split; [apply Hfg; exact Hy|exact Hin].
Qed.

(** X14: [apply_redactions] sorts what it is given: for spans that start
    at pairwise different offsets, the result does not depend on the order
    in which they are listed. *)
Theorem apply_redactions_any_order text spans spans' :
  NoDup (map sp_start spans) -> Permutation spans spans' ->
  apply_redactions text spans = apply_redactions text spans'.
Proof.
  intros Hnd Hp. unfold apply_redactions.
  rewrite (sorted_by_perm_eq sp_start Z.leb Z_leb_total Z_leb_trans
             Z_leb_antisym spans spans' Hnd Hp).
  destruct spans as [|s spans].
  - apply Permutation_nil in Hp. subst. reflexivity.
  - destruct spans' as [|s' spans']; [|reflexivity].
    apply Permutation_sym, Permutation_nil in Hp. discriminate.
Qed.

Lemma apply_redactions_any_order_witness :
  let a := mkSpan [] [] 0 5 None (Some (lit "[A]")) in
  let b := mkSpan [] [] 10 15 None (Some (lit "[B]")) in
  apply_redactions (lit "John lives in Rome!!") [a; b]
  = apply_redactions (lit "John lives in Rome!!") [b; a].
Proof.
  intros a b. apply apply_redactions_any_order.
  - repeat constructor; simpl; intuition discriminate.
  - apply perm_swap.
Defined.

(** X15: [merge_spans] does not depend on the order in which each
    detector lists its spans, as long as no two of all the spans have both
    the same start and the same end. *)
Theorem merge_spans_any_order text p p' g g' :
  NoDup (map (fun s => (sp_start s, sp_end s)) (p ++ g)) ->
  Permutation p p' -> Permutation g g' ->
  merge_spans text p g = merge_spans text p' g'.
Proof.
  intros Hnd Hp Hg. unfold merge_spans. do 3 f_equal.
  apply (sorted_by_perm_eq merge_key pair_leb pair_leb_total pair_leb_trans
           pair_leb_antisym).
  - assert (E : map merge_key (map (tag presidio) p ++ map (tag gliner) g)
                = map (fun s => (sp_start s, - sp_end s)) (p ++ g)).
    { rewrite !map_app, !map_map. reflexivity. }
    rewrite E. revert Hnd. apply NoDup_map_finer.
    intros a b H. injection H as H1 H2. f_equal; lia.
  - apply Permutation_app; apply Permutation_map; assumption.
Qed.

Lemma merge_spans_any_order_witness :
  merge_spans (lit "0123456789") [span_at 0 4; span_at 6 9] [span_at 3 7]
  = merge_spans (lit "0123456789") [span_at 6 9; span_at 0 4] [span_at 3 7].
Proof.
  apply merge_spans_any_order.
  - repeat constructor; simpl; intuition discriminate.
  - apply perm_swap.
  - apply Permutation_refl.
Defined.

(** ** From sentences to redaction *)

Lemma subseq_StronglySorted {A : Type} (R : A -> A -> Prop) l l' :
  subseq l l' -> StronglySorted R l' -> StronglySorted R l.
Proof.
  induction 1 as [|x l l' H IH|x l l' H IH]; intros Hs.
  - constructor.
  - inversion Hs; subst. auto.
  - inversion Hs as [|? ? Hs' Hx]; subst. constructor; [auto|].
    rewrite Forall_forall in *. intros y Hy. apply Hx.
    eapply subseq_In; eassumption.
Qed.

Lemma subseq_Forall {A : Type} (P : A -> Prop) l l' :
  subseq l l' -> Forall P l' -> Forall P l.
Proof.
  intros H Hf. rewrite Forall_forall in *. intros x Hx. apply Hf.
  eapply subseq_In; eassumption.
Qed.

Lemma ordered_ranges_laid_out l : forall i,
  StronglySorted (fun a b : Z * Z => snd a <= fst b) l ->
  Forall (fun r => fst r <= snd r) l ->
  Forall (fun r => i <= fst r) l ->
  laid_out i (map range_span l).
Proof.
  induction l as [|r l IH]; intros i Hs Hn Hi; simpl; [exact I|].
  inversion Hs as [|? ? Hs' Hb]; subst. inversion Hn as [|? ? Hr Hn']; subst.
  inversion Hi as [|? ? Hir _]; subst.
  split; [exact Hir|]. split; [exact Hr|]. apply IH; assumption.
Qed.

(** The pair [(start, end)] the toxicity service takes from a sentence
    triple. *)
Lemma sentence_ranges_ordered (sent_tokenize : str -> list str) text :
  exists out,
    sentences_with_offsets sent_tokenize text = Returns out /\
    StronglySorted (fun a b : Z * Z => snd a <= fst b)
      (map (fun sp => (sent_start sp, sent_end sp)) out) /\
    Forall (fun r : Z * Z => 0 <= fst r <= snd r)
      (map (fun sp => (sent_start sp, sent_end sp)) out).
Proof.
  destruct (sentences_with_offsets_shape sent_tokenize text)
    as (out & E & Hs & Hz & _).
  exists out. split; [exact E|]. split.
  - apply StronglySorted_map. exact Hs.
  - apply Forall_map. eapply Forall_impl; [|exact Hz].
    intros sp [H1 H2]. simpl. lia.
Qed.

(** X16: sentence offsets feed [redact_ranges] safely.  Whatever the
    tokenizer returns, for any selection [bad] of the [(start, end)] pairs
    of the sentences, taken in order, [redact_ranges] skips none of them:
    it returns the text between the selected sentences with one token per
    selected sentence, and putting the covered text back gives the
    original text. *)
Theorem sentence_ranges_redact (sent_tokenize : str -> list str) text token :
  exists out,
    sentences_with_offsets sent_tokenize text = Returns out /\
    forall bad,
      subseq bad (map (fun sp => (sent_start sp, sent_end sp)) out) ->
      redact_ranges text bad token
        = Returns (weave (fun _ => token) text 0 (map range_span bad)) /\
      weave (covered text) text 0 (map range_span bad) = text.
Proof.
  destruct (sentence_ranges_ordered sent_tokenize text) as (out & E & Hs & Hz).
  exists out. split; [exact E|]. intros bad Hsub.
  assert (Hl : laid_out 0 (map range_span bad)).
  { apply ordered_ranges_laid_out.
    - eapply subseq_StronglySorted; eassumption.
    - eapply subseq_Forall; [exact Hsub|].
      eapply Forall_impl; [|exact Hz]. intros r Hr. simpl in Hr. lia.
    - eapply subseq_Forall; [exact Hsub|].
      eapply Forall_impl; [|exact Hz]. intros r Hr. simpl in Hr. lia. }
  split.
  - unfold redact_ranges. destruct bad as [|r bad].
    { simpl. rewrite py_slice_from_0. reflexivity. }
    rewrite (sorted_by_id fst Z.leb _ (laid_out_ranges_sorted _ _ Hl)).
    pose proof (redact_fold text token (r :: bad) [] 0 ltac:(lia) Hl) as F.
    rewrite clamp_0 in F.
    destruct (fold_left _ _ _) as [out' i']. rewrite F. reflexivity.
  - rewrite weave_covered by (assumption || lia). apply py_slice_from_0.
Qed.
